(** * drone-provenance: step selection, structured log streaming, sequence
      counter and provenance assembly

    A shallow embedding of the Go sources

      - [pkg/drone/exec.go]            (step selection, roster, provenance,
                                        the [sequence] counter),
      - [pkg/drone/pipeline_logger.go] (the JSON file streamer),
      - the JSON logger                ([jsonlogger.Write], [split]),

    together with the properties of the design document that concern them.
    Go strings are byte sequences and are modelled by [string]; [[]byte] is
    [list byte]; Go [int] is a 64-bit two's complement integer, modelled by
    [Z] with the wrap-around written out where the code does arithmetic on
    a stored value; [map[string]T] is [gmap string T]. *)

From Stdlib Require Import ZArith Strings.Byte Strings.Ascii Strings.String.
From stdpp Require Import base option list gmap strings pretty.

Local Open Scope string_scope.
Local Open Scope Z_scope.

(* ================================================================== *)
(** * Part I: definitions *)
(* ================================================================== *)

(** ** Go basics *)

(** Go's [error] interface: only the message matters here. *)
Inductive error : Type := Err (msg : string).

Definition error_msg (e : error) : string := let 'Err m := e in m.

(** The line feed, Go's ["\n"]. *)
Definition LF_char : ascii := Ascii.ascii_of_nat 10.
Definition LF : string := String LF_char EmptyString.

(** Two's complement wrap-around of a 64-bit Go [int]. *)
Definition int_max : Z := 2 ^ 63 - 1.
Definition int_min : Z := - 2 ^ 63.
Definition wrap_int (z : Z) : Z := (z + 2 ^ 63) mod 2 ^ 64 - 2 ^ 63.

(** ** The parts of Go's [strings] package the program calls *)
Module GoStrings.

(** [strings.HasPrefix]: [len(s) >= len(prefix) && s[:len(prefix)] == prefix]. *)
Definition HasPrefix (s prefix : string) : bool :=
  (String.length prefix <=? String.length s)%nat
  && String.eqb (substring 0 (String.length prefix) s) prefix.

(** [strings.HasSuffix]:
    [len(s) >= len(suffix) && s[len(s)-len(suffix):] == suffix]. *)
Definition HasSuffix (s suffix : string) : bool :=
  (String.length suffix <=? String.length s)%nat
  && String.eqb
       (substring (String.length s - String.length suffix)
                  (String.length suffix) s)
       suffix.

(** [strings.TrimSuffix]: drops one occurrence of [suffix] at the end. *)
Definition TrimSuffix (s suffix : string) : string :=
  if HasSuffix s suffix
  then substring 0 (String.length s - String.length suffix) s
  else s.

(** Prepends a byte to the piece under construction. *)
Definition cons_head (c : ascii) (pieces : list string) : list string :=
  match pieces with
  | [] => [String c EmptyString]
  | h :: t => String c h :: t
  end.

(** [strings.Split] for a non-empty separator: the pieces of [s] between
    the non-overlapping occurrences of [sep], scanned from the left.
    [skip] counts the bytes of an occurrence of [sep] still to be passed
    over.  A string without any occurrence yields the one-element slice
    [[s]], also when [s] is empty. *)
Fixpoint genSplit (sep : string) (skip : nat) (s : string) : list string :=
  match s with
  | EmptyString => [EmptyString]
  | String c s' =>
      match skip with
      | S k => genSplit sep k s'
      | O =>
          if HasPrefix s sep
          then EmptyString :: genSplit sep (String.length sep - 1) s'
          else cons_head c (genSplit sep 0 s')
      end
  end.

(** Bytes of a string, one string per byte. *)
Fixpoint explode (s : string) : list string :=
  match s with
  | EmptyString => []
  | String c s' => String c EmptyString :: explode s'
  end.

(** [strings.Split].  With an empty separator Go splits after each UTF-8
    sequence; the program never passes one, and the model then splits
    after each byte. *)
Definition Split (s sep : string) : list string :=
  match sep with
  | EmptyString => explode s
  | _ => genSplit sep 0 s
  end.

(** [strings.Count] of a single byte. *)
Fixpoint CountByte (s : string) (c : ascii) : nat :=
  match s with
  | EmptyString => 0
  | String a s' => (if Ascii.eqb a c then 1 else 0) + CountByte s' c
  end.

End GoStrings.

(** ** [sequence]: the counter of exec.go *)

(** [sync.Mutex] is its lock bit; [value] is the stored Go [int]. *)
Record sequence : Type := mk_sequence {
  seq_locked : bool;
  value : Z
}.

(** [new(sequence)]: the zero value. *)
Definition new_sequence : sequence :=
  {| seq_locked := false; value := 0 |}.

(** [s.Lock()]: on a held mutex the caller blocks, and in a sequential run
    never resumes: [None]. *)
Definition Lock (s : sequence) : option sequence :=
  if seq_locked s then None
  else Some {| seq_locked := true; value := value s |}.

(** [s.Unlock()]: unlocking a mutex that is not held is a fatal error. *)
Definition Unlock (s : sequence) : option sequence :=
  if seq_locked s then Some {| seq_locked := false; value := value s |}
  else None.

(** [func (s *sequence) next() int] *)
Definition next (s : sequence) : option (Z * sequence) :=
  s1 ← Lock s;
  let s2 := {| seq_locked := seq_locked s1; value := wrap_int (value s1 + 1) |} in
  let i := value s2 in
  s3 ← Unlock s2;
  Some (i, s3).

(** [func (s *sequence) curr() int] *)
Definition curr (s : sequence) : option (Z * sequence) :=
  s1 ← Lock s;
  let i := value s1 in
  s2 ← Unlock s1;
  Some (i, s2).

(** [n] calls of [next] one after the other, with the values they return. *)
Fixpoint next_calls (n : nat) (s : sequence) : option (list Z * sequence) :=
  match n with
  | O => Some ([], s)
  | S k =>
      '(i, s1) ← next s;
      '(rest, s2) ← next_calls k s1;
      Some (i :: rest, s2)
  end.

(** ** The parts of Go's [path] package the program calls *)
Module GoPath.

(** [bytealg.LastIndexByteString]: index of the last [c] in [s], or -1. *)
Fixpoint LastIndexByte (s : string) (c : ascii) : Z :=
  match s with
  | EmptyString => -1
  | String a s' =>
      let r := LastIndexByte s' c in
      if 0 <=? r then r + 1
      else if Ascii.eqb a c then 0 else -1
  end.

(** One element of the path met by [Clean]; [stack] holds the elements
    kept so far, the last one first.  Empty elements and [.] are dropped;
    [..] removes the element before it when there is one to remove, is
    kept at the start of a relative path and dropped at the root. *)
Definition clean_step (rooted : bool) (stack : list string) (e : string)
  : list string :=
  if String.eqb e "" || String.eqb e "." then stack
  else if String.eqb e ".." then
    match stack with
    | top :: below => if String.eqb top ".." then e :: stack else below
    | [] => if rooted then [] else [e]
    end
  else e :: stack.

(** [path.Clean]: the shortest path equivalent to [p] by lexical
    processing. *)
Definition Clean (p : string) : string :=
  if String.eqb p "" then "."
  else
    let rooted := GoStrings.HasPrefix p "/" in
    let stack := fold_left (clean_step rooted) (GoStrings.Split p "/") [] in
    let body := String.concat "/" (rev stack) in
    if rooted then "/" ++ body
    else if String.eqb body "" then "." else body.

(** [path.Split]: [path[:i+1], path[i+1:]] for [i] the last slash. *)
Definition Split (p : string) : string * string :=
  let i := Z.to_nat (LastIndexByte p "/" + 1) in
  (substring 0 i p, substring i (String.length p - i) p).

(** The loop of [path.Base] that strips trailing slashes. *)
Fixpoint strip_trailing_slashes (p : string) : string :=
  match p with
  | EmptyString => EmptyString
  | String c p' =>
      let r := strip_trailing_slashes p' in
      if String.eqb r "" && Ascii.eqb c "/" then EmptyString
      else String c r
  end.

(** [path.Base]: the last element of the path. *)
Definition Base (p : string) : string :=
  if String.eqb p "" then "."
  else
    let p1 := strip_trailing_slashes p in
    let i := LastIndexByte p1 "/" in
    let p2 :=
      if 0 <=? i
      then substring (Z.to_nat (i + 1))
                     (String.length p1 - Z.to_nat (i + 1)) p1
      else p1 in
    if String.eqb p2 "" then "/" else p2.

(** [path.Dir]: all but the last element of the path, cleaned. *)
Definition Dir (p : string) : string := Clean (fst (Split p)).

(** The buffer loop of [path.Join]: empty leading elements are ignored,
    every later element is preceded by a slash. *)
Definition join_step (buf e : string) : string :=
  if (0 <? String.length buf)%nat || negb (String.eqb e "")
  then (if (0 <? String.length buf)%nat then buf ++ "/" else buf) ++ e
  else buf.

(** [path.Join] *)
Definition Join (elem : list string) : string :=
  let size := fold_left (fun n e => (n + String.length e)%nat) elem 0%nat in
  if (size =? 0)%nat then ""
  else Clean (fold_left join_step elem "").

End GoPath.

(** ** Types of the collaborating packages, as far as the program reads them *)

(** [github.com/drone/runner-go/pipeline/runtime] *)
Module runtime.
Inductive RunPolicy : Type := RunOnSuccess | RunOnFailure | RunAlways | RunNever.
Inductive ErrPolicy : Type := ErrFail | ErrFailFast | ErrIgnore.

Definition RunPolicy_eqb (a b : RunPolicy) : bool :=
  match a, b with
  | RunOnSuccess, RunOnSuccess | RunOnFailure, RunOnFailure
  | RunAlways, RunAlways | RunNever, RunNever => true
  | _, _ => false
  end.

Definition ErrPolicy_eqb (a b : ErrPolicy) : bool :=
  match a, b with
  | ErrFail, ErrFail | ErrFailFast, ErrFailFast | ErrIgnore, ErrIgnore => true
  | _, _ => false
  end.
End runtime.

(** [github.com/drone-runners/drone-runner-docker/engine] *)
Module engine.
Record Step : Type := mkStep {
  Name : string;
  Image : string;
  RunPolicy : runtime.RunPolicy;
  ErrPolicy : runtime.ErrPolicy;
  Labels : gmap string string
}.

Record Spec : Type := mkSpec { Steps : list Step }.

(** The assignment [step.RunPolicy = p] on the step a pointer refers to. *)
Definition set_RunPolicy (p : runtime.RunPolicy) (s : Step) : Step :=
  {| Name := Name s; Image := Image s; RunPolicy := p;
     ErrPolicy := ErrPolicy s; Labels := Labels s |}.
End engine.

(** [github.com/drone/drone-go/drone] *)
Module drone.
Inductive Status : Type :=
| StatusSkipped | StatusBlocked | StatusDeclined | StatusWaiting
| StatusPending | StatusRunning | StatusPassing | StatusFailing
| StatusKilled | StatusError.

Record Step : Type := mkStep {
  StageID : Z;
  Number : Z;
  Name : string;
  Status_ : Status;
  ErrIgnore : bool
}.

Record Stage : Type := mkStage {
  ID : Z;
  StageName : string;
  StageStatus : Status;
  Steps : list Step
}.

Record Build : Type := mkBuild {
  BuildID : Z;
  Params : gmap string string
}.
End drone.

(** [resource.Pipeline] of the docker runner: the fields read here. *)
Module resource.
Record Pipeline : Type := mkPipeline {
  Kind : string;
  Type_ : string;
  Name : string
}.
End resource.

(** in-toto statement with the SLSA v0.2 provenance predicate; the fields
    of the nested predicate are laid out flat. *)
Module intoto.
Definition StatementInTotoV01 : string := "https://in-toto.io/Statement/v0.1".
Definition PredicateSLSAProvenance : string := "https://slsa.dev/provenance/v0.2".

Record Subject : Type := mkSubject {
  SubjectName : string;
  SubjectDigest : gmap string string
}.

Record ProvenanceMaterial : Type := mkMaterial {
  URI : string;
  Digest : gmap string string
}.

Record ProvenanceStatement : Type := mkStatement {
  Type_ : string;
  PredicateType : string;
  Subject_ : list Subject;
  BuildType : string;
  BuilderID : string;
  BuildInvocationID : string;
  Parameters : gmap string string;
  BuildConfig : gmap string (list engine.Step);
  Materials : list ProvenanceMaterial
}.
End intoto.

(** A value stored in a [map[string]interface{}] by the logger. *)
Inductive JSONValue : Type :=
| JInt (n : Z)
| JString (s : string).

(** [jsons.FileWriter]: the file it appends to and the records appended. *)
Record FileWriter : Type := mkFileWriter {
  fw_path : string;
  fw_records : list (gmap string JSONValue)
}.

(** What the process leaves behind: the documents encoded into each file
    made by [os.Create], the lines of [log.Errorf], the stages printed by
    [dump].  [assembled] is a history variable: the statements that
    [generateStatement] has built in memory. *)
Record World : Type := mkWorld {
  files : gmap string (list intoto.ProvenanceStatement);
  errlog : list string;
  dumped : list drone.Stage;
  assembled : list intoto.ProvenanceStatement
}.

(** The collaborators the program calls and does not implement: the image
    registry behind [crane.Digest], the failures of the file system and of
    the JSON encoders, and the pipeline runtime. *)
Class External : Type := mkExternal {
  (** digest of an image reference, [None] when the lookup fails *)
  registry : string → option string;
  (** [FileWriter.Open] on a path *)
  open_fault : string → option error;
  (** [FileWriter.Add] of a record to a writer *)
  add_fault : FileWriter → gmap string JSONValue → option error;
  (** [os.Create] of a path *)
  create_fault : World → string → option error;
  (** [json.Encoder.Encode] of a statement into the file at a path *)
  encode_fault : World → string → intoto.ProvenanceStatement → option error;
  (** [engine.NewEnv] *)
  NewEnv_fault : option error;
  (** [runtime.Execer.Exec]: the error it returns and the stage it leaves
      in [state.Stage]; the compiled steps are only read by it *)
  Exec : engine.Spec → drone.Stage → option error * drone.Stage
}.

(** ** The JSON logger *)

(** [func split(b []byte) []string] *)
Definition split (b : list byte) : list string :=
  let s := string_of_list_byte b in
  let s := GoStrings.TrimSuffix s LF in
  GoStrings.Split s LF.

(** [jSONFileStreamer]: it owns the two counters and the writer. *)
Record jSONFileStreamer : Type := mkStreamer {
  seq : sequence;
  col : sequence;
  logFile : string;
  writer : FileWriter
}.

(** [jsonlogger].  Its [writer] and [seq] fields are pointers to the
    writer and to the [seq] counter of the streamer that made it: the
    methods below take that streamer's state and return it updated. *)
Record jsonlogger : Type := mkLogger {
  name : string;
  number : Z
}.

(** The record [Write] builds for one line. *)
Definition log_record (j : jsonlogger) (part : string) : gmap string JSONValue :=
  {[ "stepNumber" := JInt (number j);
     "stepName" := JString (name j);
     "line" := JString part ]}.

Section Logger.
Context {E : External}.

(** [jsons.FileWriter.Add]: appends one record, or fails and appends none. *)
Definition Add (w : FileWriter) (v : gmap string JSONValue)
  : option error * FileWriter :=
  match add_fault w v with
  | Some err => (Some err, w)
  | None => (None, {| fw_path := fw_path w; fw_records := fw_records w ++ [v] |})
  end.

(** The [for _, part := range split(b)] loop of [Write]; the first error
    of [Add] leaves the loop. *)
Fixpoint Write_range (j : jsonlogger) (parts : list string) (σ : jSONFileStreamer)
  : option error * jSONFileStreamer :=
  match parts with
  | [] => (None, σ)
  | part :: rest =>
      let '(err, w) := Add (writer σ) (log_record j part) in
      let σ' := {| seq := seq σ; col := col σ; logFile := logFile σ; writer := w |} in
      match err with
      | Some e => (Some e, σ')
      | None => Write_range j rest σ'
      end
  end.

(** [func (j *jsonlogger) Write(b []byte) (n int, err error)] *)
Definition Write (j : jsonlogger) (b : list byte) (σ : jSONFileStreamer)
  : (Z * option error) * jSONFileStreamer :=
  let '(err, σ') := Write_range j (split b) σ in
  ((Z.of_nat (length b), err), σ').

(** [func (j *jsonlogger) Close() error] *)
Definition Close (j : jsonlogger) (σ : jSONFileStreamer)
  : option error * jSONFileStreamer := (None, σ).

(** [func newStreamer(pipelineID string)], which returns a streamer or an
    error;
    [droneCILogsDir] is a package variable. *)
Definition newStreamer (droneCILogsDir pipelineID : string)
  : error + jSONFileStreamer :=
  let logFile := GoPath.Join [droneCILogsDir; pipelineID ++ ".log"] in
  match open_fault logFile with
  | Some err => inl err
  | None =>
      inr {| seq := new_sequence; col := new_sequence; logFile := logFile;
             writer := {| fw_path := logFile; fw_records := [] |} |}
  end.
End Logger.

(** The [for _, s := range state.Stage.Steps] loop of [Stream]: the value of
    [c] after it, [None] for the nil pointer. *)
Fixpoint Stream_range (steps : list drone.Step) (name : string) : option drone.Step :=
  match steps with
  | [] => None
  | s :: rest =>
      if String.eqb (drone.Name s) name then Some s
      else Stream_range rest name
  end.

(** [func (j *jSONFileStreamer) Stream(_, state, name) io.WriteCloser];
    [None] is the panic of [c.Name] on a nil [c]. *)
Definition Stream (j : jSONFileStreamer) (stage : drone.Stage) (name : string)
  : option jsonlogger :=
  match Stream_range (drone.Steps stage) name with
  | None => None
  | Some c => Some {| name := drone.Name c; number := drone.Number c |}
  end.

(** ** exec.go: step selection *)

(** [execCommand], the fields [exec] reads after compilation. *)
Record execCommand : Type := mkExecCommand {
  Source : string;
  Include : list string;
  Exclude : list string;
  Stage : drone.Stage;
  Build : drone.Build
}.

(** The steps of [spec.Steps] are distinct objects behind pointers; an
    assignment to [step.RunPolicy] inside a range loop changes the element
    of the list the loop is at, and nothing else. *)

(** [for _, name := range commy.Include]: [true] when [continue I] is taken. *)
Fixpoint include_names (step : engine.Step) (names : list string) : bool :=
  match names with
  | [] => false
  | name :: rest =>
      if String.eqb (engine.Name step) name then true
      else include_names step rest
  end.

(** Body of the loop labelled [I]. *)
Definition include_step (names : list string) (step : engine.Step) : engine.Step :=
  if String.eqb (engine.Name step) "clone" then step
  else if include_names step names then step
  else engine.set_RunPolicy runtime.RunNever step.

(** [if len(commy.Include) > 0 { I: for ... }] *)
Definition include_phase (commy : execCommand) (steps : list engine.Step)
  : list engine.Step :=
  if (0 <? length (Include commy))%nat
  then map (include_step (Include commy)) steps
  else steps.

(** [for _, name := range commy.Exclude] of the loop labelled [E]: the
    first match sets the policy and takes [continue E]. *)
Fixpoint exclude_names (step : engine.Step) (names : list string) : engine.Step :=
  match names with
  | [] => step
  | name :: rest =>
      if String.eqb (engine.Name step) name
      then engine.set_RunPolicy runtime.RunNever step
      else exclude_names step rest
  end.

(** Body of the loop labelled [E]. *)
Definition exclude_step (names : list string) (step : engine.Step) : engine.Step :=
  if String.eqb (engine.Name step) "clone" then step
  else exclude_names step names.

(** [if len(commy.Exclude) > 0 { E: for ... }] *)
Definition exclude_phase (commy : execCommand) (steps : list engine.Step)
  : list engine.Step :=
  if (0 <? length (Exclude commy))%nat
  then map (exclude_step (Exclude commy)) steps
  else steps.

(** Inner loop of the resume-at phase: its [continue] is unlabelled and
    goes on with the next name. *)
Fixpoint resume_names (step : engine.Step) (names : list string) : engine.Step :=
  match names with
  | [] => step
  | name :: rest =>
      if String.eqb (engine.Name step) name
      then resume_names (engine.set_RunPolicy runtime.RunNever step) rest
      else resume_names step rest
  end.

(** Outer loop of the resume-at phase: [break] at the first step named
    [resumeAt]. *)
Fixpoint resume_range (resumeAt : string) (names : list string)
  (steps : list engine.Step) : list engine.Step :=
  match steps with
  | [] => []
  | step :: rest =>
      if String.eqb (engine.Name step) resumeAt then step :: rest
      else if String.eqb (engine.Name step) "clone"
           then step :: resume_range resumeAt names rest
           else resume_names step names :: resume_range resumeAt names rest
  end.

(** [if cliContext.String("resume-at") != "" { for ... }] *)
Definition resume_phase (commy : execCommand) (resumeAt : string)
  (steps : list engine.Step) : list engine.Step :=
  if negb (String.eqb resumeAt "")
  then resume_range resumeAt (Exclude commy) steps
  else steps.

(** The three phases in the order of [exec]. *)
Definition select_steps (commy : execCommand) (resumeAt : string)
  (steps : list engine.Step) : list engine.Step :=
  resume_phase commy resumeAt (exclude_phase commy (include_phase commy steps)).

(** "create a step object for each pipeline step": the loop that appends
    to [commy.Stage.Steps]; [acc] is the roster so far. *)
Fixpoint roster_range (stageID : Z) (steps : list engine.Step)
  (acc : list drone.Step) : list drone.Step :=
  match steps with
  | [] => acc
  | step :: rest =>
      if runtime.RunPolicy_eqb (engine.RunPolicy step) runtime.RunNever
      then roster_range stageID rest acc
      else roster_range stageID rest
             (acc ++ [ {| drone.StageID := stageID;
                          drone.Number := Z.of_nat (length acc) + 1;
                          drone.Name := engine.Name step;
                          drone.Status_ := drone.StatusPending;
                          drone.ErrIgnore :=
                            runtime.ErrPolicy_eqb (engine.ErrPolicy step)
                                                  runtime.ErrIgnore |} ])
  end.

(** [commy.Stage] after that loop. *)
Definition stage_with_roster (commy : execCommand) (steps : list engine.Step)
  : drone.Stage :=
  let st := Stage commy in
  {| drone.ID := drone.ID st;
     drone.StageName := drone.StageName st;
     drone.StageStatus := drone.StageStatus st;
     drone.Steps := roster_range (drone.ID st) steps (drone.Steps st) |}.

(** ** exec.go: provenance *)

(** [path.Join(path.Dir(pf), path.Base(pf), "-provenance.json")]: the path
    [generateStatement] hands to [os.Create]. *)
Definition provenance_path (pf : string) : string :=
  GoPath.Join [GoPath.Dir pf; GoPath.Base pf; "-provenance.json"].

Section Provenance.
Context {E : External}.

(** [crane.Digest]: the digest and no error, or the empty string and the
    error of the lookup. *)
Definition crane_Digest (ref : string) : string * option error :=
  match registry ref with
  | Some dig => (dig, None)
  | None => ("", Some (Err ("digest lookup failed: " ++ ref)))
  end.

(** [func materials(spec *engine.Spec) []common.ProvenanceMaterial] *)
Fixpoint materials_range (steps : list engine.Step)
  (mat : list intoto.ProvenanceMaterial) : list intoto.ProvenanceMaterial :=
  match steps with
  | [] => mat
  | s :: rest =>
      let '(dig, _) := crane_Digest (engine.Image s) in
      materials_range rest
        (mat ++ [ {| intoto.URI := "pkg:" ++ engine.Image s ++ "@" ++ dig;
                     intoto.Digest := {[ "sha256" := dig ]} |} ])
  end.

Definition materials (spec : engine.Spec) : list intoto.ProvenanceMaterial :=
  materials_range (engine.Steps spec) [].

(** The statement [att] of [generateStatement]. *)
Definition statement (commy : execCommand) (p : resource.Pipeline)
  (spec : engine.Spec) : intoto.ProvenanceStatement :=
  {| intoto.Type_ := intoto.StatementInTotoV01;
     intoto.PredicateType := intoto.PredicateSLSAProvenance;
     intoto.Subject_ := [];
     intoto.BuildType := resource.Kind p ++ "/" ++ resource.Type_ p;
     intoto.BuilderID := "https://harness.drone.io/Attestations/DockerRunner";
     intoto.BuildInvocationID := pretty (drone.BuildID (Build commy));
     intoto.Parameters := drone.Params (Build commy);
     intoto.BuildConfig := {[ "steps" := engine.Steps spec ]};
     intoto.Materials := materials spec |}.

(** [log.Errorf]: one more line in the error log. *)
Definition log_Errorf (line : string) (w : World) : World :=
  {| files := files w; errlog := errlog w ++ [line];
     dumped := dumped w; assembled := assembled w |}.

(** The contents of the file at [fp] become [docs]. *)
Definition set_file (fp : string) (docs : list intoto.ProvenanceStatement)
  (w : World) : World :=
  {| files := <[ fp := docs ]> (files w); errlog := errlog w;
     dumped := dumped w; assembled := assembled w |}.

(** The history variable takes note of a statement built in memory. *)
Definition remember (att : intoto.ProvenanceStatement) (w : World) : World :=
  {| files := files w; errlog := errlog w; dumped := dumped w;
     assembled := assembled w ++ [att] |}.

(** [func generateStatement(commy, p, spec)]: it returns nothing. *)
Definition generateStatement (commy : execCommand) (p : resource.Pipeline)
  (spec : engine.Spec) (w : World) : World :=
  let att := statement commy p spec in
  let w := remember att w in
  let pf := Source commy in
  let fp := provenance_path pf in
  match create_fault w fp with
  | Some err => log_Errorf ("Error generating attestation," ++ error_msg err) w
  | None =>
      let w := set_file fp [] w in
      match encode_fault w fp att with
      | Some err =>
          log_Errorf ("Error generating attestation json," ++ error_msg err) w
      | None => set_file fp [att] w
      end
  end.

(** How [exec] leaves: by [return], or through [os.Exit]. *)
Inductive Outcome : Type :=
| Returned (err : option error)
| Exited (code : Z).

(** [dump(state)] *)
Definition dump (st : drone.Stage) (w : World) : World :=
  {| files := files w; errlog := errlog w;
     dumped := dumped w ++ [st]; assembled := assembled w |}.

(** [exec] from the compiled [spec] on: selection, the roster, the run,
    the exit status and the provenance.  What comes before (reading and
    parsing the pipeline file, linting, compiling, labelling) returns an
    error or yields [commy], [p] and [spec]. *)
Definition exec (commy : execCommand) (resumeAt : string)
  (p : resource.Pipeline) (spec : engine.Spec) (w : World) : Outcome * World :=
  let spec := {| engine.Steps := select_steps commy resumeAt (engine.Steps spec) |} in
  let stage := stage_with_roster commy (engine.Steps spec) in
  match NewEnv_fault with
  | Some err => (Returned (Some err), w)
  | None =>
      let '(err, stage) := Exec spec stage in
      match err with
      | Some e => (Returned (Some e), dump stage w)
      | None =>
          match drone.StageStatus stage with
          | drone.StatusError | drone.StatusFailing | drone.StatusKilled =>
              (Exited 1, w)
          | _ => (Returned None, generateStatement commy p spec w)
          end
      end
  end.

(** [Command.Action]: [log.Fatalln] exits with status 1. *)
Definition Action (commy : execCommand) (resumeAt : string)
  (p : resource.Pipeline) (spec : engine.Spec) (w : World) : Outcome * World :=
  match exec commy resumeAt p spec w with
  | (Returned (Some err), w') => (Exited 1, w')
  | (Returned None, w') => (Returned None, w')
  | (Exited code, w') => (Exited code, w')
  end.

(** The exit status of the process: [main] exits with 1 when [app.Run]
    returns an error, and with 0 at its end. *)
Definition exit_status (o : Outcome) : Z :=
  match o with
  | Exited code => code
  | Returned (Some _) => 1
  | Returned None => 0
  end.
End Provenance.

(** ** Vocabulary of the design document *)

(** "Stripping at most one trailing newline", said on the bytes. *)
Fixpoint strip_one_trailing_newline (b : list byte) : list byte :=
  match b with
  | [] => []
  | c :: rest =>
      match rest with
      | [] => if Byte.eqb c x0a then [] else [c]
      | _ :: _ => c :: strip_one_trailing_newline rest
      end
  end.

(** The number of newline bytes of an input. *)
Definition newlines (b : list byte) : nat := count_occ Byte.byte_eq_dec b x0a.

(** A step with every field but the run policy, which selection is free
    to change. *)
Definition forget_RunPolicy (s : engine.Step) : engine.Step :=
  engine.set_RunPolicy runtime.RunOnSuccess s.

(** The roster entry [exec] makes for a compiled step, with its number. *)
Definition roster_entry (stageID : Z) (n : Z) (step : engine.Step) : drone.Step :=
  {| drone.StageID := stageID;
     drone.Number := n;
     drone.Name := engine.Name step;
     drone.Status_ := drone.StatusPending;
     drone.ErrIgnore :=
       runtime.ErrPolicy_eqb (engine.ErrPolicy step) runtime.ErrIgnore |}.

(** The steps that are not marked [RunNever]. *)
Definition runnable (steps : list engine.Step) : list engine.Step :=
  List.filter
    (λ s, negb (runtime.RunPolicy_eqb (engine.RunPolicy s) runtime.RunNever))
    steps.

(** The material entry of an image with a digest: the package URI and the
    digest under the [sha256] key. *)
Definition material (image dig : string) : intoto.ProvenanceMaterial :=
  {| intoto.URI := "pkg:" ++ image ++ "@" ++ dig;
     intoto.Digest := {[ "sha256" := dig ]} |}.

(** The terminal statuses on which [exec] leaves through [os.Exit(1)]. *)
Definition failed_status (s : drone.Status) : bool :=
  match s with
  | drone.StatusError | drone.StatusFailing | drone.StatusKilled => true
  | _ => false
  end.

(** ** Sample inputs *)

(** Collaborators that never fail; the registry knows one image. *)
Definition quiet : External :=
  {| registry := λ ref, if String.eqb ref "golang:1.19" then Some "sha256:0a1b" else None;
     open_fault := λ _, None;
     add_fault := λ _ _, None;
     create_fault := λ _ _, None;
     encode_fault := λ _ _ _, None;
     NewEnv_fault := None;
     Exec := λ _ st,
       (None, {| drone.ID := drone.ID st; drone.StageName := drone.StageName st;
                 drone.StageStatus := drone.StatusPassing;
                 drone.Steps := drone.Steps st |}) |}.

(** A run whose stage ends failing, and a file system that refuses files. *)
Definition failing_run : External :=
  {| registry := λ _, None;
     open_fault := λ _, None;
     add_fault := λ _ _, None;
     create_fault := λ _ _, Some (Err "not a directory");
     encode_fault := λ _ _ _, None;
     NewEnv_fault := None;
     Exec := λ _ st,
       (None, {| drone.ID := drone.ID st; drone.StageName := drone.StageName st;
                 drone.StageStatus := drone.StatusFailing;
                 drone.Steps := drone.Steps st |}) |}.

Definition sample_streamer : jSONFileStreamer :=
  {| seq := new_sequence; col := new_sequence; logFile := "logs/42.log";
     writer := {| fw_path := "logs/42.log"; fw_records := [] |} |}.

Definition sample_logger : jsonlogger := {| name := "build"; number := 7 |}.

(** The bytes of ["a\nb\nc\n"] and of ["a\nb\nc"]. *)
Definition abc_terminated : list byte :=
  list_byte_of_string ("a" ++ LF ++ "b" ++ LF ++ "c" ++ LF).
Definition abc_unterminated : list byte :=
  list_byte_of_string ("a" ++ LF ++ "b" ++ LF ++ "c").

Definition sample_step (n : string) : engine.Step :=
  {| engine.Name := n; engine.Image := "golang:1.19";
     engine.RunPolicy := runtime.RunOnSuccess;
     engine.ErrPolicy := runtime.ErrFail; engine.Labels := ∅ |}.

Definition sample_stage : drone.Stage :=
  {| drone.ID := 0; drone.StageName := "default";
     drone.StageStatus := drone.StatusPending; drone.Steps := [] |}.

Definition sample_command (include exclude : list string) : execCommand :=
  {| Source := ".drone.yml"; Include := include; Exclude := exclude;
     Stage := sample_stage;
     Build := {| drone.BuildID := 42; drone.Params := ∅ |} |}.

Definition sample_pipeline : resource.Pipeline :=
  {| resource.Kind := "pipeline"; resource.Type_ := "docker";
     resource.Name := "default" |}.

(** A stage whose roster holds two steps named [build]. *)
Definition sample_roster_stage : drone.Stage :=
  {| drone.ID := 0; drone.StageName := "default";
     drone.StageStatus := drone.StatusRunning;
     drone.Steps :=
       [ roster_entry 0 1 (sample_step "clone");
         roster_entry 0 2 (sample_step "build");
         roster_entry 0 3 (sample_step "build") ] |}.

Definition empty_world : World :=
  {| files := ∅; errlog := []; dumped := []; assembled := [] |}.

(** ** Further sample inputs *)

(** A log file on a device that takes one record and is full then. *)
Definition full_after_one : External :=
  {| registry := λ _, None;
     open_fault := λ _, None;
     add_fault := λ w _,
       if (1 <=? length (fw_records w))%nat
       then Some (Err "no space left on device") else None;
     create_fault := λ _ _, None;
     encode_fault := λ _ _ _, None;
     NewEnv_fault := None;
     Exec := λ _ st, (None, st) |}.

(** ** Callers of [next] taking turns *)

(** Where a caller of [next] stands: before [s.Lock()], before
    [s.value++], before [i := s.value], before [s.Unlock()] with its [i],
    or returned with [i]. *)
Inductive next_pc : Type :=
| AtLock
| AtIncr
| AtRead
| AtUnlock (i : Z)
| Done (i : Z).

(** The next statement of [next] by a caller standing at [p].  [None]: the
    caller cannot move, being blocked in [Lock], or returned, or stopped by
    the fatal error of [Unlock]. *)
Definition next_stmt (s : sequence) (p : next_pc) : option (sequence * next_pc) :=
  match p with
  | AtLock => s' ← Lock s; Some (s', AtIncr)
  | AtIncr =>
      Some ({| seq_locked := seq_locked s; value := wrap_int (value s + 1) |}, AtRead)
  | AtRead => Some (s, AtUnlock (value s))
  | AtUnlock i => s' ← Unlock s; Some (s', Done i)
  | Done _ => None
  end.

(** The scheduler gives caller [t] a turn; a caller that cannot move, or
    that does not exist, leaves everything as it is. *)
Definition sched_step (st : sequence * list next_pc) (t : nat)
  : sequence * list next_pc :=
  match st.2 !! t with
  | None => st
  | Some p =>
      match next_stmt st.1 p with
      | None => st
      | Some (s', p') => (s', <[ t := p' ]> st.2)
      end
  end.

Definition run_schedule (sched : list nat) (st : sequence * list next_pc)
  : sequence * list next_pc :=
  fold_left sched_step sched st.

(** The values the callers that have returned have got. *)
Definition returned_value (p : next_pc) : option Z :=
  match p with
  | Done i => Some i
  | _ => None
  end.

Definition returned_values (ths : list next_pc) : list Z := omap returned_value ths.

(** The callers between their [Lock] and their [Unlock]. *)
Definition holds_lock (p : next_pc) : bool :=
  match p with
  | AtIncr | AtRead | AtUnlock _ => true
  | AtLock | Done _ => false
  end.

Definition holders (ths : list next_pc) : nat := length (List.filter holds_lock ths).

(** What a caller between [Lock] and [Unlock] knows of the stored value,
    [k] callers having returned. *)
Definition pc_ok (s : sequence) (k : Z) (p : next_pc) : Prop :=
  match p with
  | AtLock | Done _ => True
  | AtIncr => value s = k
  | AtRead => value s = k + 1
  | AtUnlock i => value s = k + 1 ∧ i = k + 1
  end.

(** The invariant of every schedule: the values returned are 1..[k], at
    most one caller is between [Lock] and [Unlock] and the mutex is held
    exactly then, and the stored value is [k] when the mutex is free. *)
Definition next_inv (st : sequence * list next_pc) : Prop :=
  let k := length (returned_values st.2) in
  returned_values st.2 ≡ₚ map Z.of_nat (List.seq 1 k)
  ∧ holders st.2 = (if seq_locked st.1 then 1 else 0)%nat
  ∧ Forall (pc_ok st.1 (Z.of_nat k)) st.2
  ∧ (seq_locked st.1 = false → value st.1 = Z.of_nat k).

(** ** Merging of label maps *)

(** [for k, v := range src { dst[k] = v }]: the order in which Go walks
    [src] is not fixed; the keys of a map being distinct, every order gives
    the same map. *)
Definition copy_into (src dst : gmap string string) : gmap string string :=
  map_fold (λ (k v : string) (acc : gmap string string), <[ k := v ]> acc) dst src.

(** ** exec.go: the labels of the steps *)

Definition labelPipelineFile : string := "io.drone.desktop.pipeline.file".
Definition labelIncludes : string := "io.drone.desktop.pipeline.includes".
Definition labelExcludes : string := "io.drone.desktop.pipeline.excludes".
Definition labelStageName : string := "io.drone.stage.name".
Definition labelStepName : string := "io.drone.step.name".
Definition labelStepNumber : string := "io.drone.step.number".
Definition labelService : string := "io.drone.desktop.pipeline.service".

(** [labels.Combine] of the runner: the maps copied one after the other
    into a new map, so that a later map wins. *)
Definition Combine (maps : list (gmap string string)) : gmap string string :=
  fold_left (λ c e, copy_into e c) maps ∅.

(** [for _, svc := range p.Services]: the label is set at the first
    service with the step's name, where the loop breaks; [services] are
    the names of [p.Services]. *)
Fixpoint service_range (stepName : string) (services : list string)
  (extraLabels : gmap string string) : gmap string string :=
  match services with
  | [] => extraLabels
  | svc :: rest =>
      if String.eqb stepName svc
      then <[ labelService := "true" ]> extraLabels
      else service_range stepName rest extraLabels
  end.

Section Labels.
(** [strings.TrimSpace] of Go, which cuts Unicode white space at both
    ends, is taken as it comes. *)
Variable TrimSpace : string → string.

(** The map [extraLabels] that the body of the loop builds for the step at
    index [i]. *)
Definition extra_labels (commy : execCommand) (p : resource.Pipeline)
  (services : list string) (i : nat) (step : engine.Step) : gmap string string :=
  let extraLabels : gmap string string := ∅ in
  let extraLabels := <[ labelStageName := TrimSpace (resource.Name p) ]> extraLabels in
  let extraLabels := <[ labelStepName := TrimSpace (engine.Name step) ]> extraLabels in
  let extraLabels := <[ labelStepNumber := pretty (Z.of_nat i) ]> extraLabels in
  let extraLabels :=
    if (0 <? length (Include commy))%nat
    then <[ labelIncludes := String.concat "," (Include commy) ]> extraLabels
    else extraLabels in
  let extraLabels :=
    if (0 <? length (Exclude commy))%nat
    then <[ labelExcludes := String.concat "," (Exclude commy) ]> extraLabels
    else extraLabels in
  service_range (engine.Name step) services extraLabels.

(** Body of the loop: [step.Labels = labels.Combine(step.Labels, extraLabels)]. *)
Definition label_step (commy : execCommand) (p : resource.Pipeline)
  (services : list string) (i : nat) (step : engine.Step) : engine.Step :=
  {| engine.Name := engine.Name step;
     engine.Image := engine.Image step;
     engine.RunPolicy := engine.RunPolicy step;
     engine.ErrPolicy := engine.ErrPolicy step;
     engine.Labels :=
       Combine [engine.Labels step; extra_labels commy p services i step] |}.

(** [for i, step := range spec.Steps { ... }] *)
Definition label_steps (commy : execCommand) (p : resource.Pipeline)
  (services : list string) (steps : list engine.Step) : list engine.Step :=
  imap (label_step commy p services) steps.
End Labels.

(** ** utils/containers.go: [TriggerUIRefresh] *)

Definition busyboxImage : string := "docker.io/library/busybox".

(** What [ContainerCreate] is given: the fields of [container.Config] and
    of [container.HostConfig] the code sets. *)
Record ContainerConfig : Type := mkContainerConfig {
  cc_Image : string;
  cc_AttachStdout : bool;
  cc_AttachStderr : bool;
  cc_Labels : gmap string string;
  cc_AutoRemove : bool
}.

(** The calls made on the Docker client and on [io.Copy], in order. *)
Inductive DockerCall : Type :=
| CallImageInspect (image : string)
| CallImagePull (image platform : string)
| CallCopy
| CallContainerCreate (config : ContainerConfig)
| CallContainerStart (id : string).

(** The Docker daemon as the code meets it. *)
Class Docker : Type := mkDocker {
  inspect_result : string → option error;
  pull_result : string → string → option error;
  copy_result : option error;
  create_result : ContainerConfig → error + string;
  start_result : string → option error
}.

(** The labels every refresh container gets. *)
Definition default_labels : gmap string string :=
  {[ "com.docker.desktop.extension" := "true";
     "com.docker.desktop.extension.name" := "Drone CI";
     "com.docker.compose.project" :=
       "drone_drone-ci-docker-extension-desktop-extension" ]}.

Section TriggerUIRefresh.
Context {D : Docker}.

(** The part of [TriggerUIRefresh] after the image is known to be there. *)
Definition create_and_start (labels : gmap string string)
  (calls : list DockerCall) : option error * list DockerCall :=
  let cLabels := default_labels in
  let cLabels := copy_into labels cLabels in
  let config :=
    {| cc_Image := busyboxImage; cc_AttachStdout := true; cc_AttachStderr := true;
       cc_Labels := cLabels; cc_AutoRemove := true |} in
  let calls := (calls ++ [CallContainerCreate config])%list in
  match create_result config with
  | inl err => (Some err, calls)
  | inr id =>
      let calls := (calls ++ [CallContainerStart id])%list in
      match start_result id with
      | Some err => (Some err, calls)
      | None => (None, calls)
      end
  end.

(** [func TriggerUIRefresh(ctx, cli, labels) error], with the calls it
    makes; [GOARCH] is [runtime.GOARCH]. *)
Definition TriggerUIRefresh (GOARCH : string) (labels : gmap string string)
  : option error * list DockerCall :=
  let calls := [CallImageInspect busyboxImage] in
  match inspect_result busyboxImage with
  | Some _ =>
      let platform := "linux/" ++ GOARCH in
      let calls := (calls ++ [CallImagePull busyboxImage platform])%list in
      match pull_result busyboxImage platform with
      | Some err => (Some err, calls)
      | None =>
          let calls := (calls ++ [CallCopy])%list in
          match copy_result with
          | Some err => (Some err, calls)
          | None => create_and_start labels calls
          end
      end
  | None => create_and_start labels calls
  end.
End TriggerUIRefresh.

(** A daemon without the image, which it can pull. *)
Definition daemon_without_image : Docker :=
  {| inspect_result := λ _, Some (Err "No such image");
     pull_result := λ _ _, None;
     copy_result := None;
     create_result := λ _, inr "c0ffee";
     start_result := λ _, None |}.

(** A daemon without the image and without a network. *)
Definition daemon_offline : Docker :=
  {| inspect_result := λ _, Some (Err "No such image");
     pull_result := λ _ _, Some (Err "no route to host");
     copy_result := None;
     create_result := λ _, inr "c0ffee";
     start_result := λ _, None |}.

(* ================================================================== *)
(** * Part II: properties *)
(* ================================================================== *)

Local Open Scope list_scope.

(** ** [split]: one piece more than there are newlines left *)

Lemma ascii_eqb_byte (c : byte) :
  Ascii.eqb (ascii_of_byte c) LF_char = Byte.eqb c x0a.
Proof. destruct c; reflexivity. Qed.

Lemma string_of_list_byte_cons c b :
  string_of_list_byte (c :: b) = String (ascii_of_byte c) (string_of_list_byte b).
Proof. reflexivity. Qed.

Lemma HasPrefix_LF c s :
  GoStrings.HasPrefix (String c s) LF = Ascii.eqb c LF_char.
Proof.
  unfold GoStrings.HasPrefix, LF. simpl.
  destruct s; simpl; destruct (Ascii.eqb c LF_char); reflexivity.
Qed.

Lemma genSplit_LF_cons c s :
  GoStrings.genSplit LF 0 (String c s) =
  if Ascii.eqb c LF_char then EmptyString :: GoStrings.genSplit LF 0 s
  else GoStrings.cons_head c (GoStrings.genSplit LF 0 s).
Proof.
  change (GoStrings.genSplit LF 0 (String c s)) with
    (if GoStrings.HasPrefix (String c s) LF
     then EmptyString :: GoStrings.genSplit LF 0 s
     else GoStrings.cons_head c (GoStrings.genSplit LF 0 s)).
  now rewrite HasPrefix_LF.
Qed.

Lemma genSplit_LF_length s :
  length (GoStrings.genSplit LF 0 s) = S (GoStrings.CountByte s LF_char).
Proof.
  induction s as [|c s IH]; [reflexivity|].
  rewrite genSplit_LF_cons. cbn [GoStrings.CountByte].
  destruct (Ascii.eqb c LF_char); cbn [length].
  - now rewrite IH.
  - destruct (GoStrings.genSplit LF 0 s); cbn in *; lia.
Qed.

Lemma HasSuffix_LF_cons c d s :
  GoStrings.HasSuffix (String c (String d s)) LF = GoStrings.HasSuffix (String d s) LF.
Proof.
  unfold GoStrings.HasSuffix, LF. cbn [String.length].
  replace (S (S (String.length s)) - 1)%nat with (S (String.length s)) by lia.
  replace (S (String.length s) - 1)%nat with (String.length s) by lia.
  reflexivity.
Qed.

Lemma TrimSuffix_LF_single c :
  GoStrings.TrimSuffix (String c EmptyString) LF =
  if Ascii.eqb c LF_char then EmptyString else String c EmptyString.
Proof.
  unfold GoStrings.TrimSuffix, GoStrings.HasSuffix, LF. cbn.
  destruct (Ascii.eqb c LF_char); reflexivity.
Qed.

Lemma TrimSuffix_LF_cons c d s :
  GoStrings.TrimSuffix (String c (String d s)) LF =
  String c (GoStrings.TrimSuffix (String d s) LF).
Proof.
  unfold GoStrings.TrimSuffix. rewrite HasSuffix_LF_cons.
  destruct (GoStrings.HasSuffix (String d s) LF); [|reflexivity].
  unfold LF. cbn [String.length].
  replace (S (S (String.length s)) - 1)%nat with (S (String.length s)) by lia.
  replace (S (String.length s) - 1)%nat with (String.length s) by lia.
  reflexivity.
Qed.

(** The code's [TrimSuffix(s, "\n")] is the stripping of one trailing
    newline byte. *)
Lemma TrimSuffix_LF_bytes (b : list byte) :
  GoStrings.TrimSuffix (string_of_list_byte b) LF =
  string_of_list_byte (strip_one_trailing_newline b).
Proof.
  induction b as [|c [|d b] IH]; [reflexivity| |].
  - cbn [strip_one_trailing_newline].
    rewrite string_of_list_byte_cons. change (string_of_list_byte []) with EmptyString.
    rewrite TrimSuffix_LF_single, ascii_eqb_byte.
    now destruct (Byte.eqb c x0a).
  - change (strip_one_trailing_newline (c :: d :: b))
      with (c :: strip_one_trailing_newline (d :: b)).
    rewrite (string_of_list_byte_cons c (strip_one_trailing_newline (d :: b))), <- IH.
    rewrite !string_of_list_byte_cons. apply TrimSuffix_LF_cons.
Qed.

Lemma CountByte_bytes (b : list byte) :
  GoStrings.CountByte (string_of_list_byte b) LF_char = newlines b.
Proof.
  unfold newlines.
  induction b as [|c b IH]; [reflexivity|].
  rewrite string_of_list_byte_cons. cbn [GoStrings.CountByte count_occ].
  rewrite ascii_eqb_byte, IH.
  destruct (Byte.byte_eq_dec c x0a) as [->|Hne]; [reflexivity|].
  destruct (Byte.eqb c x0a) eqn:Heq; [|reflexivity].
  apply Byte.byte_dec_bl in Heq. contradiction.
Qed.

Lemma split_length (b : list byte) :
  length (split b) = S (newlines (strip_one_trailing_newline b)).
Proof.
  unfold split. rewrite TrimSuffix_LF_bytes.
  change (GoStrings.Split ?s LF) with (GoStrings.genSplit LF 0 s).
  now rewrite genSplit_LF_length, CountByte_bytes.
Qed.

(** ** The JSON logger *)

Section LoggerFacts.
Context {E : External}.

(** Whatever [Add] answers, [Write] reaches a prefix of the lines, appends
    their records in order and touches neither counter. *)
Lemma Write_range_prefix (j : jsonlogger) (parts : list string) (σ : jSONFileStreamer) :
  ∃ k : nat,
    (k ≤ length parts)%nat
    ∧ fw_records (writer (Write_range j parts σ).2) =
        fw_records (writer σ) ++ map (log_record j) (take k parts)
    ∧ fw_path (writer (Write_range j parts σ).2) = fw_path (writer σ)
    ∧ seq (Write_range j parts σ).2 = seq σ
    ∧ col (Write_range j parts σ).2 = col σ
    ∧ logFile (Write_range j parts σ).2 = logFile σ
    ∧ ((Write_range j parts σ).1 = None → k = length parts).
Proof.
  revert σ. induction parts as [|part rest IH]; intros σ.
  - exists 0%nat. cbn. rewrite app_nil_r. done.
  - cbn [Write_range]. unfold Add.
    destruct (add_fault (writer σ) (log_record j part)) as [e|] eqn:Hadd.
    + exists 0%nat. cbn. rewrite app_nil_r. repeat split; try done. lia.
    + match goal with |- context [Write_range j rest ?s] =>
        destruct (IH s) as (k & Hk & Hrec & Hpath & Hseq & Hcol & Hlog & Hall)
      end.
      exists (S k). cbn [length take map writer fw_records fw_path seq col logFile] in *.
      rewrite Hrec, <- app_assoc. repeat split; try done; try lia.
      intros Hnone. rewrite (Hall Hnone). done.
Qed.

Lemma Write_range_success (j : jsonlogger) (parts : list string) (σ : jSONFileStreamer) :
  (Write_range j parts σ).1 = None →
  fw_records (writer (Write_range j parts σ).2) =
    fw_records (writer σ) ++ map (log_record j) parts.
Proof.
  intros Hok.
  destruct (Write_range_prefix j parts σ) as (k & _ & Hrec & _ & _ & _ & _ & Hall).
  rewrite Hrec, (Hall Hok), firstn_all. done.
Qed.

Lemma Write_unfold (j : jsonlogger) (b : list byte) (σ : jSONFileStreamer) :
  Write j b σ =
  ((Z.of_nat (length b), (Write_range j (split b) σ).1), (Write_range j (split b) σ).2).
Proof. unfold Write. destruct (Write_range j (split b) σ). done. Qed.

End LoggerFacts.

Lemma log_record_lookup (j : jsonlogger) (part k : string) (v : JSONValue) :
  log_record j part !! k = Some v →
  (k = "stepNumber" ∧ v = JInt (number j))
  ∨ (k = "stepName" ∧ v = JString (name j))
  ∨ (k = "line" ∧ v = JString part).
Proof.
  unfold log_record. intros H.
  apply lookup_insert_Some in H as [[<- <-]|[_ H]]; [auto|].
  apply lookup_insert_Some in H as [[<- <-]|[_ H]]; [auto|].
  apply lookup_singleton_Some in H as [<- <-]. auto.
Qed.

Lemma log_record_fields (j : jsonlogger) (part : string) :
  log_record j part !! "stepNumber" = Some (JInt (number j))
  ∧ log_record j part !! "stepName" = Some (JString (name j))
  ∧ log_record j part !! "line" = Some (JString part)
  ∧ dom (log_record j part) = ({[ "stepNumber"; "stepName"; "line" ]} : gset string).
Proof.
  unfold log_record. split; [|split; [|split]].
  - by rewrite lookup_insert_eq.
  - rewrite lookup_insert_ne by done. by rewrite lookup_insert_eq.
  - rewrite !lookup_insert_ne by done. by rewrite lookup_singleton_eq.
  - rewrite !dom_insert_L, dom_singleton_L. set_solver.
Qed.

Lemma split_abc_terminated : split abc_terminated = ["a"; "b"; "c"].
Proof. reflexivity. Qed.

Lemma split_abc_unterminated : split abc_unterminated = ["a"; "b"; "c"].
Proof. reflexivity. Qed.

(** C1 (as amended).  A [Write] whose appends all succeed adds, for each
    line of [split b] and in order, one record that holds the step's
    number under [stepNumber], the step's name under [stepName] and the
    line under [line], and holds nothing else: there is no line ordinal,
    and the streamer's counters [seq] and [col] are left as they were.
    Both ["a\nb\nc\n"] and ["a\nb\nc"] split into the three lines a, b, c,
    so each adds exactly three records. *)
Theorem C1_write_tags_lines_with_step_identity
  (E : External) (j : jsonlogger) (b : list byte) (σ : jSONFileStreamer) :
  (Write j b σ).1.2 = None →
  fw_records (writer (Write j b σ).2) =
    fw_records (writer σ) ++ map (log_record j) (split b)
  ∧ (∀ part : string,
        log_record j part !! "stepNumber" = Some (JInt (number j))
        ∧ log_record j part !! "stepName" = Some (JString (name j))
        ∧ log_record j part !! "line" = Some (JString part)
        ∧ dom (log_record j part) = ({[ "stepNumber"; "stepName"; "line" ]} : gset string))
  ∧ seq (Write j b σ).2 = seq σ
  ∧ col (Write j b σ).2 = col σ
  ∧ split abc_terminated = ["a"; "b"; "c"]
  ∧ split abc_unterminated = ["a"; "b"; "c"].
Proof.
  rewrite Write_unfold. cbn [fst snd]. intros Hok.
  destruct (Write_range_prefix j (split b) σ) as (k & _ & _ & _ & Hseq & Hcol & _).
  split; [by apply Write_range_success|].
  split; [apply log_record_fields|].
  repeat split; assumption || reflexivity.
Qed.

Lemma C1_write_tags_lines_with_step_identity_witness :
  (@Write quiet sample_logger abc_terminated sample_streamer).1.2 = None
  ∧ fw_records (writer (@Write quiet sample_logger abc_terminated sample_streamer).2) =
      [log_record sample_logger "a"; log_record sample_logger "b";
       log_record sample_logger "c"]
  ∧ seq (@Write quiet sample_logger abc_terminated sample_streamer).2 = new_sequence.
Proof.
  assert (Hok : (@Write quiet sample_logger abc_terminated sample_streamer).1.2 = None)
    by reflexivity.
  split; [exact Hok|].
  destruct (C1_write_tags_lines_with_step_identity
              quiet sample_logger abc_terminated sample_streamer Hok)
    as (Hrec & _ & Hseq & _).
  split; [exact Hrec | exact Hseq].
Defined.

(** C1 (as stated) fails.  Writing ["a\nb\nc\n"] through the sink of step
    number 7 on a fresh streamer appends three records, but the streamer's
    counter still holds 0 afterwards and no field of the records holds the
    ordinals 1, 2, 3. *)
Lemma C1_records_carry_no_line_ordinal :
  length (fw_records (writer (@Write quiet sample_logger abc_terminated sample_streamer).2)) = 3%nat
  ∧ curr (seq (@Write quiet sample_logger abc_terminated sample_streamer).2)
      = Some (0, new_sequence)
  ∧ ¬ ∃ k : string,
        map (λ r : gmap string JSONValue, r !! k)
            (fw_records (writer (@Write quiet sample_logger abc_terminated sample_streamer).2))
        = [Some (JInt 1); Some (JInt 2); Some (JInt 3)].
Proof.
  assert (Hrec :
    fw_records (writer (@Write quiet sample_logger abc_terminated sample_streamer).2) =
    [log_record sample_logger "a"; log_record sample_logger "b";
     log_record sample_logger "c"]).
  { rewrite Write_unfold. cbn [snd].
    rewrite Write_range_success by reflexivity. reflexivity. }
  rewrite Hrec. split; [reflexivity|]. split; [reflexivity|].
  intros [k Hk]. cbn [map] in Hk. injection Hk as H1 _ _.
  apply log_record_lookup in H1 as [[_ H]|[[_ H]|[_ H]]]; discriminate H.
Qed.

(** C10.  A [Write] whose appends all succeed adds exactly [k + 1]
    records, [k] being the number of newline bytes left in the input once
    at most one trailing newline is stripped, and reports the length of the
    input.  The [line] fields of the records added are the lines of the
    input, in order.  The empty input and the input of a single newline add
    exactly one record, and the [line] field of that record is the empty
    string. *)
Theorem C10_write_appends_one_more_than_newlines
  (E : External) (j : jsonlogger) (b : list byte) (σ : jSONFileStreamer) :
  (Write j b σ).1.2 = None →
  (∃ added : list (gmap string JSONValue),
      fw_records (writer (Write j b σ).2) = fw_records (writer σ) ++ added
      ∧ length added = S (newlines (strip_one_trailing_newline b))
      ∧ map (λ r : gmap string JSONValue, r !! "line") added
        = map (λ part : string, Some (JString part)) (split b)
      ∧ (b = [] ∨ b = [x0a] →
         ∃ r : gmap string JSONValue,
           added = [r]
           ∧ r !! "line" = Some (JString "")
           ∧ r !! "stepNumber" = Some (JInt (number j))
           ∧ r !! "stepName" = Some (JString (name j))))
  ∧ (Write j b σ).1.1 = Z.of_nat (length b).
Proof.
  rewrite Write_unfold. cbn [fst snd]. intros Hok. split; [|reflexivity].
  exists (map (log_record j) (split b)).
  split; [by apply Write_range_success|].
  split; [by rewrite length_map, split_length|].
  split.
  { rewrite map_map. apply map_ext. intros part.
    by destruct (log_record_fields j part) as (_ & _ & Hline & _). }
  intros Hb. exists (log_record j "").
  destruct (log_record_fields j "") as (Hnumber & Hname & Hline & _).
  split; [by destruct Hb as [-> | ->]|]. done.
Qed.

Lemma C10_write_appends_one_more_than_newlines_witness :
  (@Write quiet sample_logger [x0a] sample_streamer).1 = (1, None)
  ∧ ∃ r : gmap string JSONValue,
      fw_records (writer (@Write quiet sample_logger [x0a] sample_streamer).2) = [r]
      ∧ r !! "line" = Some (JString "").
Proof.
  split; [reflexivity|].
  destruct (C10_write_appends_one_more_than_newlines
              quiet sample_logger [x0a] sample_streamer eq_refl)
    as [(added & Hrec & _ & _ & Hone) _].
  destruct Hone as (r & -> & Hline & _); [by right|].
  exists r. split; [exact Hrec | exact Hline].
Defined.

(** ** The sequence counter *)

Lemma wrap_int_id (z : Z) : int_min ≤ z ≤ int_max → wrap_int z = z.
Proof.
  unfold wrap_int, int_min, int_max. intros H.
  rewrite Z.mod_small by lia. lia.
Qed.

Lemma next_unlocked (v : Z) :
  next {| seq_locked := false; value := v |} =
  Some (wrap_int (v + 1), {| seq_locked := false; value := wrap_int (v + 1) |}).
Proof. reflexivity. Qed.

Lemma curr_unlocked (v : Z) :
  curr {| seq_locked := false; value := v |} =
  Some (v, {| seq_locked := false; value := v |}).
Proof. reflexivity. Qed.

(** A held mutex is never released by the caller itself: no result. *)
Lemma next_locked (v : Z) : next {| seq_locked := true; value := v |} = None.
Proof. reflexivity. Qed.

Lemma next_calls_from (n : nat) (v : Z) :
  0 ≤ v → v + Z.of_nat n ≤ int_max →
  next_calls n {| seq_locked := false; value := v |} =
  Some (map (λ i : nat, v + Z.of_nat i) (List.seq 1 n),
        {| seq_locked := false; value := v + Z.of_nat n |}).
Proof.
  revert v. induction n as [|n IH]; intros v Hv Hmax.
  - cbn. by rewrite Z.add_0_r.
  - cbn [next_calls]. rewrite next_unlocked.
    rewrite wrap_int_id by (unfold int_min, int_max in *; lia).
    cbn [mbind option_bind]. rewrite IH by lia.
    cbn [mbind option_bind List.seq map]. do 3 f_equal.
    + rewrite <- (seq_shift n 1), map_map. apply map_ext. intros i. lia.
    + lia.
Qed.

(** C8.  On a fresh counter, [N] calls of [next] (for [N] within the
    range of a Go [int]) return 1, 2, ..., [N] in this order, so the
    [i]-th call returns [i] and every value of 1..[N] is returned exactly
    once, and they leave [N] stored.  [curr] returns the stored value and
    leaves the counter as it was; on a fresh counter it returns 0. *)
Theorem C8_next_counts_from_one (N : nat) :
  Z.of_nat N ≤ int_max →
  (∃ returned : list Z,
      next_calls N new_sequence =
        Some (returned, {| seq_locked := false; value := Z.of_nat N |})
      ∧ returned = map Z.of_nat (List.seq 1 N)
      ∧ (∀ i : nat, (1 ≤ i ≤ N)%nat → returned !! (i - 1)%nat = Some (Z.of_nat i))
      ∧ NoDup returned
      ∧ (∀ z : Z, z ∈ returned ↔ 1 ≤ z ≤ Z.of_nat N))
  ∧ (∀ v : Z, curr {| seq_locked := false; value := v |} =
               Some (v, {| seq_locked := false; value := v |}))
  ∧ curr new_sequence = Some (0, new_sequence).
Proof.
  intros HN. split; [|split; [exact curr_unlocked | reflexivity]].
  exists (map Z.of_nat (List.seq 1 N)).
  split.
  { unfold new_sequence. rewrite next_calls_from by lia. reflexivity. }
  split; [reflexivity|].
  split.
  { intros i Hi. rewrite list_lookup_fmap.
    rewrite lookup_seq_lt by lia. cbn. f_equal. lia. }
  split.
  { apply NoDup_fmap_2; [intros x y; lia | apply NoDup_seq]. }
  intros z. rewrite list_elem_of_fmap. split.
  - intros (i & -> & Hi). apply elem_of_seq in Hi. lia.
  - intros Hz. exists (Z.to_nat z). split; [lia|]. apply elem_of_seq. lia.
Qed.

Lemma C8_next_counts_from_one_witness :
  next_calls 3 new_sequence = Some ([1; 2; 3], {| seq_locked := false; value := 3 |})
  ∧ curr new_sequence = Some (0, new_sequence).
Proof.
  assert (H3 : Z.of_nat 3 ≤ int_max) by (vm_compute; discriminate).
  destruct (C8_next_counts_from_one 3 H3) as [(returned & Hcalls & -> & _) [_ Hcurr]].
  split; [exact Hcalls | exact Hcurr].
Defined.

(** ** [Stream] *)

Lemma Stream_range_first (steps : list drone.Step) (name : string) :
  (∃ s, s ∈ steps ∧ drone.Name s = name) →
  ∃ (i : nat) (c : drone.Step),
    steps !! i = Some c
    ∧ drone.Name c = name
    ∧ (∀ (k : nat) (c' : drone.Step),
          (k < i)%nat → steps !! k = Some c' → drone.Name c' ≠ name)
    ∧ Stream_range steps name = Some c.
Proof.
  induction steps as [|s steps IH]; intros (x & Hin & Hx).
  - by apply elem_of_nil in Hin.
  - cbn [Stream_range]. destruct (String.eqb_spec (drone.Name s) name) as [Heq|Hne].
    + exists 0%nat, s. repeat split; try done. intros k c' Hk. lia.
    + apply elem_of_cons in Hin as [->|Hin]; [done|].
      destruct IH as (i & c & Hi & Hc & Hbefore & Hfound); [by exists x|].
      exists (S i), c. repeat split; try done.
      intros [|k] c' Hk Hlook; cbn in Hlook.
      * by injection Hlook as <-.
      * apply (Hbefore k); [lia | done].
Qed.

Lemma Stream_range_none (steps : list drone.Step) (name : string) :
  Stream_range steps name = None ↔ ∀ s, s ∈ steps → drone.Name s ≠ name.
Proof.
  induction steps as [|s steps IH]; cbn [Stream_range].
  - split; [intros _ s Hs; by apply elem_of_nil in Hs | done].
  - destruct (String.eqb_spec (drone.Name s) name) as [Heq|Hne].
    + split; [done|]. intros H. exfalso. apply (H s); [left | done].
    + rewrite IH. split.
      * intros H x Hx. apply elem_of_cons in Hx as [->|Hx]; auto.
      * intros H x Hx. apply H. by right.
Qed.

(** C9.  When some step of the stage's roster has the requested name,
    [Stream] returns a sink (the nil dereference is not reached), and the
    sink carries the name and the number of the first roster step with
    that name. *)
Theorem C9_stream_tags_first_matching_step
  (j : jSONFileStreamer) (stage : drone.Stage) (stepName : string) :
  (∃ s, s ∈ drone.Steps stage ∧ drone.Name s = stepName) →
  Stream j stage stepName ≠ None
  ∧ ∃ (i : nat) (c : drone.Step),
      drone.Steps stage !! i = Some c
      ∧ drone.Name c = stepName
      ∧ (∀ (k : nat) (c' : drone.Step),
            (k < i)%nat → drone.Steps stage !! k = Some c' → drone.Name c' ≠ stepName)
      ∧ Stream j stage stepName =
          Some {| name := drone.Name c; number := drone.Number c |}.
Proof.
  intros Hex.
  destruct (Stream_range_first _ _ Hex) as (i & c & Hi & Hc & Hbefore & Hfound).
  unfold Stream. rewrite Hfound. split; [done|].
  exists i, c. done.
Qed.

Lemma C9_stream_tags_first_matching_step_witness :
  (∃ s, s ∈ drone.Steps sample_roster_stage ∧ drone.Name s = "build")
  ∧ Stream sample_streamer sample_roster_stage "build" =
      Some {| name := "build"; number := 2 |}.
Proof.
  assert (Hex : ∃ s, s ∈ drone.Steps sample_roster_stage ∧ drone.Name s = "build").
  { exists (roster_entry 0 2 (sample_step "build")).
    split; [right; left | reflexivity]. }
  split; [exact Hex|].
  destruct (C9_stream_tags_first_matching_step sample_streamer sample_roster_stage
              "build" Hex) as [Hsome _].
  destruct (Stream sample_streamer sample_roster_stage "build") as [l|] eqn:Hs;
    [|by destruct Hsome].
  vm_compute in Hs. by injection Hs as <-.
Defined.

(** ** Step selection *)

Lemma set_RunPolicy_Name p s : engine.Name (engine.set_RunPolicy p s) = engine.Name s.
Proof. reflexivity. Qed.

Lemma set_RunPolicy_twice p q s :
  engine.set_RunPolicy p (engine.set_RunPolicy q s) = engine.set_RunPolicy p s.
Proof. reflexivity. Qed.

Lemma forget_set_RunPolicy p s :
  forget_RunPolicy (engine.set_RunPolicy p s) = forget_RunPolicy s.
Proof. reflexivity. Qed.

Lemma include_names_spec (step : engine.Step) (names : list string) :
  include_names step names = bool_decide (engine.Name step ∈ names).
Proof.
  induction names as [|n names IH]; cbn [include_names].
  - symmetry. apply bool_decide_eq_false. apply not_elem_of_nil.
  - destruct (String.eqb_spec (engine.Name step) n) as [Heq|Hne].
    + subst n. symmetry. apply bool_decide_eq_true. left.
    + rewrite IH. apply bool_decide_ext. rewrite elem_of_cons. split; [intros H; by right | intros [H|H]; [by destruct Hne | done]].
Qed.

Lemma exclude_names_spec (step : engine.Step) (names : list string) :
  exclude_names step names =
  if decide (engine.Name step ∈ names) then engine.set_RunPolicy runtime.RunNever step else step.
Proof.
  induction names as [|n names IH]; cbn [exclude_names].
  - rewrite decide_False; [done | apply not_elem_of_nil].
  - destruct (String.eqb_spec (engine.Name step) n) as [Heq|Hne].
    + subst n. rewrite decide_True; [done | left].
    + rewrite IH. apply decide_ext. rewrite elem_of_cons. split; [intros H; by right | intros [H|H]; [by destruct Hne | done]].
Qed.

Lemma resume_names_spec (step : engine.Step) (names : list string) :
  resume_names step names =
  if decide (engine.Name step ∈ names) then engine.set_RunPolicy runtime.RunNever step else step.
Proof.
  revert step. induction names as [|n names IH]; intros step; cbn [resume_names].
  - rewrite decide_False; [done | apply not_elem_of_nil].
  - destruct (String.eqb_spec (engine.Name step) n) as [Heq|Hne].
    + subst n. rewrite IH, set_RunPolicy_Name, set_RunPolicy_twice.
      rewrite (decide_True (P := engine.Name step ∈ engine.Name step :: names)) by left.
      by destruct (decide (engine.Name step ∈ names)).
    + rewrite IH. apply decide_ext. rewrite elem_of_cons. split; [intros H; by right | intros [H|H]; [by destruct Hne | done]].
Qed.

(** Decides [step.Name == "clone"] in the code and in the statement at once. *)
Ltac clone_cases s :=
  destruct (String.eqb_spec (engine.Name s) "clone");
  [ rewrite (decide_True (P := engine.Name s = "clone")) by done
  | rewrite (decide_False (P := engine.Name s = "clone")) by done ].

Lemma include_step_spec (names : list string) (s : engine.Step) :
  include_step names s =
  if decide (engine.Name s = "clone") then s
  else if decide (engine.Name s ∈ names) then s else engine.set_RunPolicy runtime.RunNever s.
Proof.
  unfold include_step. rewrite include_names_spec.
  clone_cases s; [done|]. unfold bool_decide.
  by destruct (decide_rel elem_of (engine.Name s) names).
Qed.

Lemma exclude_step_spec (names : list string) (s : engine.Step) :
  exclude_step names s =
  if decide (engine.Name s = "clone") then s
  else if decide (engine.Name s ∈ names) then engine.set_RunPolicy runtime.RunNever s else s.
Proof.
  unfold exclude_step. rewrite exclude_names_spec.
  clone_cases s; done.
Qed.

Lemma positive_length_nonempty {A} (l : list A) :
  (0 <? length l)%nat = bool_decide (l ≠ []).
Proof. destruct l; reflexivity. Qed.

(** The include and exclude phases act on each step on its own. *)
Lemma include_exclude_pointwise (commy : execCommand) (steps : list engine.Step) :
  exclude_phase commy (include_phase commy steps) =
  map (λ s : engine.Step,
         if decide (engine.Name s = "clone") then s
         else if decide ((Include commy ≠ [] ∧ engine.Name s ∉ Include commy)
                         ∨ engine.Name s ∈ Exclude commy)
              then engine.set_RunPolicy runtime.RunNever s else s)
      steps.
Proof.
  unfold exclude_phase, include_phase.
  destruct (Include commy) as [|i inc] eqn:Hinc;
    destruct (Exclude commy) as [|e exc] eqn:Hexc; cbn [length Nat.ltb Nat.leb].
  - rewrite <- (map_id steps) at 1. apply map_ext. intros s.
    destruct (decide (engine.Name s = "clone")); [done|].
    rewrite decide_False; [done|]. intros [[? _]|H]; [done|]. by apply elem_of_nil in H.
  - apply map_ext. intros s. rewrite exclude_step_spec.
    destruct (decide (engine.Name s = "clone")); [done|].
    apply decide_ext. split; [by right | by intros [[??]|?]].
  - apply map_ext. intros s. rewrite include_step_spec.
    destruct (decide (engine.Name s = "clone")); [done|].
    destruct (decide (engine.Name s ∈ i :: inc)) as [Hin|Hout].
    + rewrite decide_False; [done|]. intros [[_ ?]|H]; [done|]. by apply elem_of_nil in H.
    + rewrite decide_True; [done|]. by left.
  - rewrite map_map. apply map_ext. intros s.
    rewrite exclude_step_spec, include_step_spec.
    destruct (decide (engine.Name s = "clone")) as [Hc|Hc].
    { by rewrite decide_True. }
    destruct (decide (engine.Name s ∈ i :: inc)) as [Hin|Hout].
    + rewrite (decide_False (P := engine.Name s = "clone")) by done.
      apply decide_ext. split; [by right | by intros [[??]|?]].
    + rewrite set_RunPolicy_Name, (decide_False (P := engine.Name s = "clone")) by done.
      rewrite (decide_True (P := _ ∨ _)) by (left; done).
      by destruct (decide (engine.Name s ∈ e :: exc)).
Qed.

(** C5.  After the include and the exclude phase every step is the step it
    was, except that its run policy is [RunNever] when it is not named
    [clone] and either the include list is non-empty and lacks its name, or
    the exclude list has its name.  So [clone] keeps its policy, and a
    step named in both lists ends up [RunNever]. *)
Theorem C5_include_then_exclude
  (commy : execCommand) (steps : list engine.Step) :
  exclude_phase commy (include_phase commy steps) =
    map (λ s : engine.Step,
           if decide (engine.Name s = "clone") then s
           else if decide ((Include commy ≠ [] ∧ engine.Name s ∉ Include commy)
                           ∨ engine.Name s ∈ Exclude commy)
                then engine.set_RunPolicy runtime.RunNever s else s)
        steps
  ∧ (∀ (i : nat) (s : engine.Step),
        steps !! i = Some s →
        (engine.Name s = "clone" →
           exclude_phase commy (include_phase commy steps) !! i = Some s)
        ∧ (engine.Name s ≠ "clone" →
           Include commy ≠ [] → engine.Name s ∉ Include commy →
           exclude_phase commy (include_phase commy steps) !! i = Some (engine.set_RunPolicy runtime.RunNever s))
        ∧ (engine.Name s ≠ "clone" →
           engine.Name s ∈ Exclude commy →
           exclude_phase commy (include_phase commy steps) !! i = Some (engine.set_RunPolicy runtime.RunNever s))
        ∧ (engine.Name s ≠ "clone" →
           engine.Name s ∈ Include commy → engine.Name s ∈ Exclude commy →
           exclude_phase commy (include_phase commy steps) !! i = Some (engine.set_RunPolicy runtime.RunNever s))).
Proof.
  split; [apply include_exclude_pointwise|].
  intros i s Hi. rewrite include_exclude_pointwise.
  change (map ?f steps) with (f <$> steps). rewrite list_lookup_fmap, Hi. cbn [fmap option_fmap option_map].
  split; [|split; [|split]].
  - intros Hc. by rewrite decide_True.
  - intros Hc Hne Hout. rewrite decide_False by done.
    rewrite decide_True; [done | by left].
  - intros Hc Hin. rewrite decide_False by done.
    rewrite decide_True; [done | by right].
  - intros Hc _ Hin. rewrite decide_False by done.
    rewrite decide_True; [done | by right].
Qed.

Lemma C5_include_then_exclude_witness :
  map engine.RunPolicy
    (exclude_phase (sample_command ["build"; "test"] ["test"])
       (include_phase (sample_command ["build"; "test"] ["test"])
          (map sample_step ["clone"; "build"; "test"; "deploy"])))
  = [runtime.RunOnSuccess; runtime.RunOnSuccess; runtime.RunNever; runtime.RunNever]
  ∧ exclude_phase (sample_command ["build"; "test"] ["test"])
       (include_phase (sample_command ["build"; "test"] ["test"])
          (map sample_step ["clone"; "build"; "test"; "deploy"])) !! 2%nat
    = Some (engine.set_RunPolicy runtime.RunNever (sample_step "test")).
Proof.
  split; [reflexivity|].
  destruct (C5_include_then_exclude (sample_command ["build"; "test"] ["test"])
              (map sample_step ["clone"; "build"; "test"; "deploy"])) as [_ H].
  destruct (H 2%nat (sample_step "test") eq_refl) as (_ & _ & _ & Hboth).
  apply Hboth.
  - discriminate.
  - right; left.
  - left.
Defined.

Lemma resume_range_before (resumeAt : string) (names : list string)
  (pre post : list engine.Step) (s : engine.Step) :
  engine.Name s = resumeAt →
  (∀ p, p ∈ pre → engine.Name p ≠ resumeAt) →
  resume_range resumeAt names (pre ++ s :: post) =
    map (λ p : engine.Step,
           if decide (engine.Name p ≠ "clone" ∧ engine.Name p ∈ names)
           then engine.set_RunPolicy runtime.RunNever p else p)
        pre
    ++ s :: post.
Proof.
  intros Hs. induction pre as [|p pre IH]; intros Hpre.
  - cbn [app map resume_range]. by rewrite (proj2 (String.eqb_eq _ _) Hs).
  - cbn [app map resume_range].
    assert (Hp : engine.Name p ≠ resumeAt) by (apply Hpre; left).
    rewrite (proj2 (String.eqb_neq _ _) Hp).
    rewrite IH by (intros q Hq; apply Hpre; by right).
    destruct (String.eqb_spec (engine.Name p) "clone") as [Hc|Hc].
    + rewrite decide_False; [done | by intros [? _]].
    + rewrite resume_names_spec. f_equal. apply decide_ext. split; [done | by intros [_ ?]].
Qed.

(** C6.  With a resume-at name that some step [s] is the first to carry,
    the resume-at phase marks [RunNever] exactly the steps before [s] that
    are not named [clone] and whose name is in the exclude list; the other
    steps before [s], [s] itself and every step after it are left as they
    are.  For resume-at [test], exclude list [build] and the steps clone,
    build, test, deploy, the whole selection leaves clone, test and deploy
    as they are and marks build [RunNever]. *)
Theorem C6_resume_at_marks_excluded_steps_before :
  (∀ (commy : execCommand) (resumeAt : string)
     (pre post : list engine.Step) (s : engine.Step),
      resumeAt ≠ "" →
      engine.Name s = resumeAt →
      (∀ p, p ∈ pre → engine.Name p ≠ resumeAt) →
      resume_phase commy resumeAt (pre ++ s :: post) =
        map (λ p : engine.Step,
               if decide (engine.Name p ≠ "clone" ∧ engine.Name p ∈ Exclude commy)
               then engine.set_RunPolicy runtime.RunNever p else p)
            pre
        ++ s :: post)
  ∧ (∀ (commy : execCommand) (c b t d : engine.Step),
        Include commy = [] → Exclude commy = ["build"] →
        engine.Name c = "clone" → engine.Name b = "build" →
        engine.Name t = "test" → engine.Name d = "deploy" →
        select_steps commy "test" [c; b; t; d] =
          [c; engine.set_RunPolicy runtime.RunNever b; t; d]).
Proof.
  split.
  - intros commy resumeAt pre post s Hne Hs Hpre. unfold resume_phase.
    rewrite (proj2 (String.eqb_neq _ _) Hne). cbn [negb].
    by apply resume_range_before.
  - intros commy c b t d Hinc Hexc Hc Hb Ht Hd.
    unfold select_steps, exclude_phase, include_phase.
    rewrite Hinc, Hexc. cbn [length Nat.ltb Nat.leb map].
    unfold exclude_step. cbn [exclude_names].
    rewrite Hc, Hb, Ht, Hd. cbn [String.eqb Ascii.eqb Bool.eqb].
    unfold resume_phase. rewrite Hexc. cbn [negb String.eqb Ascii.eqb Bool.eqb resume_range].
    rewrite set_RunPolicy_Name, Hc, Hb, Ht.
    cbn [String.eqb Ascii.eqb Bool.eqb resume_names].
    rewrite set_RunPolicy_Name, Hb. reflexivity.
Qed.

Lemma C6_resume_at_marks_excluded_steps_before_witness :
  resume_phase (sample_command [] ["build"; "lint"]) "test"
    (map sample_step ["clone"; "lint"; "vet"] ++ sample_step "test" :: map sample_step ["build"])
  = [sample_step "clone"; engine.set_RunPolicy runtime.RunNever (sample_step "lint");
     sample_step "vet"; sample_step "test"; sample_step "build"]
  ∧ map engine.RunPolicy
      (select_steps (sample_command [] ["build"]) "test"
         (map sample_step ["clone"; "build"; "test"; "deploy"]))
    = [runtime.RunOnSuccess; runtime.RunNever; runtime.RunOnSuccess; runtime.RunOnSuccess].
Proof.
  destruct C6_resume_at_marks_excluded_steps_before as [Hgen Hex].
  split.
  - rewrite (Hgen (sample_command [] ["build"; "lint"]) "test"
               (map sample_step ["clone"; "lint"; "vet"]) (map sample_step ["build"])
               (sample_step "test")).
    + reflexivity.
    + discriminate.
    + reflexivity.
    + intros p Hp. cbn in Hp.
      repeat (apply elem_of_cons in Hp as [->|Hp]; [discriminate|]).
      by apply elem_of_nil in Hp.
  - cbn [map].
    rewrite (Hex (sample_command [] ["build"]) (sample_step "clone") (sample_step "build")
               (sample_step "test") (sample_step "deploy"));
      reflexivity.
Defined.

(** *** Selection keeps the list; the roster drops what is skipped *)

Lemma include_step_forget names s :
  forget_RunPolicy (include_step names s) = forget_RunPolicy s.
Proof.
  unfold include_step.
  destruct (String.eqb (engine.Name s) "clone"); [done|].
  by destruct (include_names s names).
Qed.

Lemma exclude_step_forget names s :
  forget_RunPolicy (exclude_step names s) = forget_RunPolicy s.
Proof.
  unfold exclude_step. rewrite exclude_names_spec.
  destruct (String.eqb (engine.Name s) "clone"); [done|].
  by destruct (decide (engine.Name s ∈ names)).
Qed.

Lemma resume_range_forget resumeAt names steps :
  map forget_RunPolicy (resume_range resumeAt names steps) = map forget_RunPolicy steps.
Proof.
  induction steps as [|s steps IH]; [done|]. cbn [resume_range].
  destruct (String.eqb (engine.Name s) resumeAt); [done|].
  destruct (String.eqb (engine.Name s) "clone"); cbn [map]; rewrite IH; [done|].
  rewrite resume_names_spec. by destruct (decide (engine.Name s ∈ names)).
Qed.

(** The three phases change nothing but run policies. *)
Lemma select_steps_forget (commy : execCommand) (resumeAt : string)
  (steps : list engine.Step) :
  map forget_RunPolicy (select_steps commy resumeAt steps) = map forget_RunPolicy steps.
Proof.
  unfold select_steps, resume_phase, exclude_phase, include_phase.
  assert (Hinc : map forget_RunPolicy
                   (if (0 <? length (Include commy))%nat
                    then map (include_step (Include commy)) steps else steps)
                 = map forget_RunPolicy steps).
  { destruct (0 <? length (Include commy))%nat; [|done].
    rewrite map_map. apply map_ext. intros; apply include_step_forget. }
  set (s1 := if (0 <? length (Include commy))%nat
             then map (include_step (Include commy)) steps else steps) in *.
  assert (Hexc : map forget_RunPolicy
                   (if (0 <? length (Exclude commy))%nat
                    then map (exclude_step (Exclude commy)) s1 else s1)
                 = map forget_RunPolicy steps).
  { rewrite <- Hinc. destruct (0 <? length (Exclude commy))%nat; [|done].
    rewrite map_map. apply map_ext. intros; apply exclude_step_forget. }
  set (s2 := if (0 <? length (Exclude commy))%nat
             then map (exclude_step (Exclude commy)) s1 else s1) in *.
  destruct (negb (String.eqb resumeAt "")); [|done].
  by rewrite resume_range_forget.
Qed.

Lemma select_steps_length (commy : execCommand) (resumeAt : string)
  (steps : list engine.Step) :
  length (select_steps commy resumeAt steps) = length steps.
Proof.
  rewrite <- (length_map forget_RunPolicy), select_steps_forget. apply length_map.
Qed.

Lemma select_steps_images (commy : execCommand) (resumeAt : string)
  (steps : list engine.Step) :
  map engine.Image (select_steps commy resumeAt steps) = map engine.Image steps.
Proof.
  transitivity (map engine.Image (map forget_RunPolicy (select_steps commy resumeAt steps))).
  - rewrite map_map. apply map_ext. reflexivity.
  - rewrite select_steps_forget, map_map. apply map_ext. reflexivity.
Qed.

(** The roster loop appends one entry per step not marked [RunNever], in
    order, numbered on from the length of the roster it starts with. *)
Lemma roster_range_spec (stageID : Z) (steps : list engine.Step) (acc : list drone.Step) :
  roster_range stageID steps acc =
  acc ++ imap (λ (k : nat) (s : engine.Step),
                 roster_entry stageID (Z.of_nat (length acc + k) + 1) s)
              (runnable steps).
Proof.
  revert acc. induction steps as [|s steps IH]; intros acc.
  - cbn. by rewrite app_nil_r.
  - cbn [roster_range runnable List.filter].
    destruct (runtime.RunPolicy_eqb (engine.RunPolicy s) runtime.RunNever); cbn [negb].
    + apply IH.
    + rewrite IH. fold (runnable steps). cbn [imap].
      rewrite <- app_assoc. cbn [app]. f_equal. f_equal.
      * unfold roster_entry. do 2 f_equal. lia.
      * apply imap_ext. intros k x _. cbn. rewrite length_app. cbn [length].
        do 2 f_equal. lia.
Qed.

(** C2 (as amended).  The list after the three selection phases has the
    steps of the compiled list, all of them and in their order, differing
    at most in the run policy.  The provenance statement is built from
    this full list: its build configuration holds it under [steps] and its
    materials have one entry per step.  The stage's step roster is
    extended only by the steps that are not marked [RunNever], in their
    order, numbered consecutively after the entries it already had. *)
Theorem C2_selection_keeps_steps_roster_drops_skipped
  (E : External) (commy : execCommand) (resumeAt : string)
  (p : resource.Pipeline) (steps : list engine.Step) :
  map forget_RunPolicy (select_steps commy resumeAt steps) = map forget_RunPolicy steps
  ∧ length (select_steps commy resumeAt steps) = length steps
  ∧ intoto.BuildConfig
      (statement commy p {| engine.Steps := select_steps commy resumeAt steps |})
      !! "steps" = Some (select_steps commy resumeAt steps)
  ∧ drone.Steps (stage_with_roster commy (select_steps commy resumeAt steps)) =
      drone.Steps (Stage commy)
      ++ imap (λ (k : nat) (s : engine.Step),
                 roster_entry (drone.ID (Stage commy))
                   (Z.of_nat (length (drone.Steps (Stage commy)) + k) + 1) s)
              (runnable (select_steps commy resumeAt steps)).
Proof.
  split; [apply select_steps_forget|].
  split; [apply select_steps_length|].
  split; [apply lookup_singleton_eq|].
  apply roster_range_spec.
Qed.

(** C2 (as stated) fails.  With the exclude list [test] and the steps
    clone, build, test, the selected list still has the three steps, the
    last one marked [RunNever], but the stage's roster has only clone and
    build. *)
Lemma C2_roster_lacks_never_steps :
  map engine.Name
      (select_steps (sample_command [] ["test"]) ""
         (map sample_step ["clone"; "build"; "test"]))
    = ["clone"; "build"; "test"]
  ∧ map engine.RunPolicy
      (select_steps (sample_command [] ["test"]) ""
         (map sample_step ["clone"; "build"; "test"]))
    = [runtime.RunOnSuccess; runtime.RunOnSuccess; runtime.RunNever]
  ∧ map drone.Name
      (drone.Steps
         (stage_with_roster (sample_command [] ["test"])
            (select_steps (sample_command [] ["test"]) ""
               (map sample_step ["clone"; "build"; "test"]))))
    = ["clone"; "build"].
Proof. repeat split. Qed.

(** ** Provenance *)

Section ProvenanceFacts.
Context {E : External}.

Lemma materials_range_spec (steps : list engine.Step)
  (mat : list intoto.ProvenanceMaterial) :
  materials_range steps mat =
  mat ++ map (λ s : engine.Step,
                material (engine.Image s) (default "" (registry (engine.Image s))))
             steps.
Proof.
  revert mat. induction steps as [|s steps IH]; intros mat.
  - cbn. by rewrite app_nil_r.
  - cbn [materials_range map]. unfold crane_Digest.
    destruct (registry (engine.Image s)) as [dig|]; cbn [default];
      rewrite IH, <- app_assoc; reflexivity.
Qed.

Lemma materials_spec (spec : engine.Spec) :
  materials spec =
  map (λ s : engine.Step,
         material (engine.Image s) (default "" (registry (engine.Image s))))
      (engine.Steps spec).
Proof. unfold materials. by rewrite materials_range_spec. Qed.

(** The materials depend on the images only, which selection keeps. *)
Lemma materials_after_selection (commy : execCommand) (resumeAt : string)
  (steps : list engine.Step) :
  materials {| engine.Steps := select_steps commy resumeAt steps |} =
  materials {| engine.Steps := steps |}.
Proof.
  rewrite !materials_spec. cbn [engine.Steps].
  rewrite <- !(map_map engine.Image
                 (λ i, material i (default "" (registry i)))).
  by rewrite select_steps_images.
Qed.

End ProvenanceFacts.

(** C7.  The materials list has one entry per step of the compiled list,
    in the order of the steps, also after selection has marked steps
    [RunNever]: the entry of a step is made of its image and of the digest
    the lookup returned.  When the lookup of a step's image fails, its
    entry is there all the same, with the empty string under [sha256]. *)
Theorem C7_materials_one_entry_per_step
  (E : External) (commy : execCommand) (resumeAt : string) (steps : list engine.Step) :
  materials {| engine.Steps := steps |} =
    map (λ s : engine.Step,
           material (engine.Image s) (default "" (registry (engine.Image s))))
        steps
  ∧ length (materials {| engine.Steps := steps |}) = length steps
  ∧ materials {| engine.Steps := select_steps commy resumeAt steps |} =
      materials {| engine.Steps := steps |}
  ∧ (∀ (i : nat) (s : engine.Step),
        steps !! i = Some s →
        registry (engine.Image s) = None →
        ∃ m : intoto.ProvenanceMaterial,
          materials {| engine.Steps := steps |} !! i = Some m
          ∧ intoto.Digest m !! "sha256" = Some ""
          ∧ intoto.URI m = ("pkg:" ++ engine.Image s ++ "@")%string).
Proof.
  split; [apply materials_spec|].
  split; [rewrite materials_spec; apply length_map|].
  split; [apply materials_after_selection|].
  intros i s Hi Hnone. rewrite materials_spec. cbn [engine.Steps].
  exists (material (engine.Image s) "").
  split; [|split].
  - change (map ?f steps) with (f <$> steps).
    rewrite list_lookup_fmap, Hi. cbn. by rewrite Hnone.
  - apply lookup_singleton_eq.
  - reflexivity.
Qed.

Lemma C7_materials_one_entry_per_step_witness :
  map intoto.URI
      (@materials quiet
         {| engine.Steps :=
              [sample_step "clone";
               {| engine.Name := "build"; engine.Image := "alpine";
                  engine.RunPolicy := runtime.RunNever;
                  engine.ErrPolicy := runtime.ErrFail; engine.Labels := ∅ |}] |})
    = ["pkg:golang:1.19@sha256:0a1b"; "pkg:alpine@"]
  ∧ ∃ m : intoto.ProvenanceMaterial,
      @materials quiet
         {| engine.Steps :=
              [sample_step "clone";
               {| engine.Name := "build"; engine.Image := "alpine";
                  engine.RunPolicy := runtime.RunNever;
                  engine.ErrPolicy := runtime.ErrFail; engine.Labels := ∅ |}] |}
        !! 1%nat = Some m
      ∧ intoto.Digest m !! "sha256" = Some ""
      ∧ intoto.URI m = "pkg:alpine@".
Proof.
  split; [reflexivity|].
  destruct (C7_materials_one_entry_per_step quiet (sample_command [] []) ""
              [sample_step "clone";
               {| engine.Name := "build"; engine.Image := "alpine";
                  engine.RunPolicy := runtime.RunNever;
                  engine.ErrPolicy := runtime.ErrFail; engine.Labels := ∅ |}])
    as (_ & _ & _ & Hfail).
  apply (Hfail 1%nat
           {| engine.Name := "build"; engine.Image := "alpine";
              engine.RunPolicy := runtime.RunNever;
              engine.ErrPolicy := runtime.ErrFail; engine.Labels := ∅ |});
    reflexivity.
Defined.

(** ** The end of [exec] *)

Section ExecFacts.
Context {E : External}.

Lemma generateStatement_assembled (commy : execCommand) (p : resource.Pipeline)
  (spec : engine.Spec) (w : World) :
  assembled (generateStatement commy p spec w) =
  assembled w ++ [statement commy p spec].
Proof.
  unfold generateStatement.
  destruct (create_fault _ _); [reflexivity|].
  destruct (encode_fault _ _ _); reflexivity.
Qed.

(** A refused [os.Create] leaves one line in the error log and no file. *)
Lemma generateStatement_create_fails (commy : execCommand) (p : resource.Pipeline)
  (spec : engine.Spec) (w : World) (err : error) :
  create_fault (remember (statement commy p spec) w)
               (provenance_path (Source commy)) = Some err →
  errlog (generateStatement commy p spec w) =
    errlog w ++ [("Error generating attestation," ++ error_msg err)%string]
  ∧ files (generateStatement commy p spec w) = files w.
Proof. unfold generateStatement. intros ->. split; reflexivity. Qed.

(** A failed [Encode] leaves one line in the error log and an empty file. *)
Lemma generateStatement_encode_fails (commy : execCommand) (p : resource.Pipeline)
  (spec : engine.Spec) (w : World) (err : error) :
  create_fault (remember (statement commy p spec) w)
               (provenance_path (Source commy)) = None →
  encode_fault (set_file (provenance_path (Source commy)) []
                  (remember (statement commy p spec) w))
               (provenance_path (Source commy)) (statement commy p spec) = Some err →
  errlog (generateStatement commy p spec w) =
    errlog w ++ [("Error generating attestation json," ++ error_msg err)%string]
  ∧ files (generateStatement commy p spec w) =
      <[ provenance_path (Source commy) := [] ]> (files w).
Proof. unfold generateStatement. intros -> ->. split; reflexivity. Qed.

Lemma generateStatement_written (commy : execCommand) (p : resource.Pipeline)
  (spec : engine.Spec) (w : World) :
  create_fault (remember (statement commy p spec) w)
               (provenance_path (Source commy)) = None →
  encode_fault (set_file (provenance_path (Source commy)) []
                  (remember (statement commy p spec) w))
               (provenance_path (Source commy)) (statement commy p spec) = None →
  errlog (generateStatement commy p spec w) = errlog w
  ∧ files (generateStatement commy p spec w) !! provenance_path (Source commy)
    = Some [statement commy p spec].
Proof.
  unfold generateStatement. intros -> ->. split; [reflexivity|].
  cbn. apply lookup_insert_eq.
Qed.

(** The three ways [exec] ends once the runtime is created. *)
Lemma exec_cases (commy : execCommand) (resumeAt : string)
  (p : resource.Pipeline) (spec : engine.Spec) (w : World) :
  NewEnv_fault = None →
  exec commy resumeAt p spec w =
  let sel := {| engine.Steps := select_steps commy resumeAt (engine.Steps spec) |} in
  let run := Exec sel (stage_with_roster commy (engine.Steps sel)) in
  match run.1 with
  | Some e => (Returned (Some e), dump run.2 w)
  | None =>
      if failed_status (drone.StageStatus run.2) then (Exited 1, w)
      else (Returned None, generateStatement commy p sel w)
  end.
Proof.
  intros Henv. unfold exec. rewrite Henv. cbn zeta. cbn [engine.Steps].
  destruct (Exec _ _) as [[e|] st]; cbn [fst snd]; [reflexivity|].
  destruct (drone.StageStatus st); reflexivity.
Qed.

End ExecFacts.

(** C3 (as amended).  Once the runtime is created, [exec] ends in one of
    three ways.  When the run returns no error and the stage's final
    status is none of error, failing and killed, the provenance statement
    of the selected step list is built; [exec] then returns no error and
    the exit status is 0 whatever fails in the assembly.  A refused creation
    of the file or a failed encoding adds one line to the error log.  A
    failed digest lookup adds none: the step's material is there with the
    empty string under [sha256], and when the file is created and encoded
    the error log is as it was and the file holds the statement.  When the
    final status is error, failing or killed, the process exits with status
    1 and no statement is built.  When the run returns an error, the state
    is dumped, the error is returned, the exit status is 1 and no statement
    is built. *)
Theorem C3_provenance_after_successful_run_only
  (E : External) (commy : execCommand) (resumeAt : string)
  (p : resource.Pipeline) (spec : engine.Spec) (w : World) :
  NewEnv_fault = None →
  let sel := {| engine.Steps := select_steps commy resumeAt (engine.Steps spec) |} in
  let run := Exec sel (stage_with_roster commy (engine.Steps sel)) in
  let fp := provenance_path (Source commy) in
  let att := statement commy p sel in
  (run.1 = None → failed_status (drone.StageStatus run.2) = false →
     exec commy resumeAt p spec w = (Returned None, generateStatement commy p sel w)
     ∧ exit_status (Action commy resumeAt p spec w).1 = 0
     ∧ assembled (exec commy resumeAt p spec w).2 = assembled w ++ [att]
     ∧ (∀ err, create_fault (remember att w) fp = Some err →
          errlog (exec commy resumeAt p spec w).2 =
            errlog w ++ [("Error generating attestation," ++ error_msg err)%string])
     ∧ (∀ err, create_fault (remember att w) fp = None →
          encode_fault (set_file fp [] (remember att w)) fp att = Some err →
          errlog (exec commy resumeAt p spec w).2 =
            errlog w ++ [("Error generating attestation json," ++ error_msg err)%string])
     ∧ (∀ (i : nat) (s : engine.Step),
          engine.Steps sel !! i = Some s →
          registry (engine.Image s) = None →
          ∃ m : intoto.ProvenanceMaterial,
            intoto.Materials att !! i = Some m
            ∧ intoto.Digest m !! "sha256" = Some "")
     ∧ (create_fault (remember att w) fp = None →
        encode_fault (set_file fp [] (remember att w)) fp att = None →
        errlog (exec commy resumeAt p spec w).2 = errlog w
        ∧ files (exec commy resumeAt p spec w).2 !! fp = Some [att]))
  ∧ (run.1 = None → failed_status (drone.StageStatus run.2) = true →
     exec commy resumeAt p spec w = (Exited 1, w)
     ∧ exit_status (Action commy resumeAt p spec w).1 = 1)
  ∧ (∀ e, run.1 = Some e →
     exec commy resumeAt p spec w = (Returned (Some e), dump run.2 w)
     ∧ assembled (exec commy resumeAt p spec w).2 = assembled w
     ∧ exit_status (Action commy resumeAt p spec w).1 = 1).
Proof.
  intros Henv sel run fp att.
  pose proof (exec_cases commy resumeAt p spec w Henv) as Hexec.
  cbn zeta in Hexec. fold sel in Hexec. fold run in Hexec.
  split; [|split].
  - intros Hrun Hstatus. rewrite Hrun, Hstatus in Hexec.
    unfold Action. rewrite Hexec. cbn [fst snd exit_status].
    split; [reflexivity|]. split; [reflexivity|].
    split; [apply generateStatement_assembled|].
    split; [intros err Hc; by apply generateStatement_create_fails|].
    split; [intros err Hc He; by apply generateStatement_encode_fails|].
    split.
    + intros i s Hi Hnone. exists (material (engine.Image s) "").
      split; [|apply lookup_singleton_eq].
      unfold att, statement. cbn [intoto.Materials]. rewrite materials_spec.
      change (map ?f ?l) with (f <$> l).
      rewrite list_lookup_fmap, Hi. cbn. by rewrite Hnone.
    + intros Hc He. by apply generateStatement_written.
  - intros Hrun Hstatus. rewrite Hrun, Hstatus in Hexec.
    unfold Action. rewrite Hexec. split; reflexivity.
  - intros e Hrun. rewrite Hrun in Hexec.
    unfold Action. rewrite Hexec. repeat split.
Qed.

Lemma C3_provenance_after_successful_run_only_witness :
  @exec quiet (sample_command [] ["test"]) "" sample_pipeline
     {| engine.Steps := map sample_step ["clone"; "build"; "test"] |} empty_world
  = (Returned None,
     @generateStatement quiet (sample_command [] ["test"]) sample_pipeline
       {| engine.Steps :=
            select_steps (sample_command [] ["test"]) ""
              (map sample_step ["clone"; "build"; "test"]) |} empty_world)
  ∧ exit_status
      (@Action quiet (sample_command [] ["test"]) "" sample_pipeline
         {| engine.Steps := map sample_step ["clone"; "build"; "test"] |} empty_world).1
    = 0.
Proof.
  destruct (C3_provenance_after_successful_run_only quiet (sample_command [] ["test"]) ""
              sample_pipeline
              {| engine.Steps := map sample_step ["clone"; "build"; "test"] |}
              empty_world eq_refl) as [Hok _].
  destruct (Hok eq_refl eq_refl) as (Hexec & Hexit & _).
  split; [exact Hexec | exact Hexit].
Defined.

(** C3 (as stated) fails, twice.  For a run whose stage ends failing,
    [exec] exits with status 1 and leaves the world as it found it: no
    statement has been built, no file made, nothing logged.  And for a
    successful run with a step whose image the registry does not know, the
    lookup fails and nothing is logged: [exec] returns no error, the error
    log stays empty, and the statement built has that step's material with
    the empty digest. *)
Lemma C3_failing_build_unassembled_digest_failure_unlogged :
  (@exec failing_run (sample_command [] []) "" sample_pipeline
     {| engine.Steps := map sample_step ["clone"; "build"] |} empty_world
   = (Exited 1, empty_world)
   ∧ assembled
       (@exec failing_run (sample_command [] []) "" sample_pipeline
          {| engine.Steps := map sample_step ["clone"; "build"] |} empty_world).2
     = [])
  ∧ (@crane_Digest quiet "alpine" = ("", Some (Err "digest lookup failed: alpine"))
     ∧ (@exec quiet (sample_command [] []) "" sample_pipeline
          {| engine.Steps :=
               [ {| engine.Name := "build"; engine.Image := "alpine";
                    engine.RunPolicy := runtime.RunOnSuccess;
                    engine.ErrPolicy := runtime.ErrFail; engine.Labels := ∅ |} ] |}
          empty_world).1
       = Returned None
     ∧ errlog
         (@exec quiet (sample_command [] []) "" sample_pipeline
            {| engine.Steps :=
                 [ {| engine.Name := "build"; engine.Image := "alpine";
                      engine.RunPolicy := runtime.RunOnSuccess;
                      engine.ErrPolicy := runtime.ErrFail; engine.Labels := ∅ |} ] |}
            empty_world).2
       = []
     ∧ map intoto.Materials
         (assembled
            (@exec quiet (sample_command [] []) "" sample_pipeline
               {| engine.Steps :=
                    [ {| engine.Name := "build"; engine.Image := "alpine";
                         engine.RunPolicy := runtime.RunOnSuccess;
                         engine.ErrPolicy := runtime.ErrFail; engine.Labels := ∅ |} ] |}
               empty_world).2)
       = [[material "alpine" ""]]).
Proof. repeat split. Qed.

(** C4: what the code does at the pipeline file [.drone.yml].  The path
    handed to [os.Create] is [.drone.yml/-provenance.json]: its directory
    is the pipeline file itself, not the directory [.] the pipeline file
    is in, and when the creation is not refused that path is the one file
    made.  For [ci/.drone.yml] the path is [ci/.drone.yml/-provenance.json]. *)
Theorem C4_provenance_path_is_below_pipeline_file :
  provenance_path ".drone.yml" = ".drone.yml/-provenance.json"
  ∧ GoPath.Dir (provenance_path ".drone.yml") = ".drone.yml"
  ∧ GoPath.Dir ".drone.yml" = "."
  ∧ GoPath.Dir (provenance_path ".drone.yml") ≠ GoPath.Dir ".drone.yml"
  ∧ provenance_path "ci/.drone.yml" = "ci/.drone.yml/-provenance.json"
  ∧ GoPath.Dir (provenance_path "ci/.drone.yml") ≠ GoPath.Dir "ci/.drone.yml"
  ∧ dom (files (@generateStatement quiet (sample_command [] []) sample_pipeline
                  {| engine.Steps := [] |} empty_world))
    = ({[ ".drone.yml/-provenance.json" ]} : gset string).
Proof.
  split; [reflexivity|]. split; [reflexivity|]. split; [reflexivity|].
  split; [discriminate|]. split; [reflexivity|]. split; [discriminate|].
  cbn. rewrite insert_insert_eq, insert_empty. apply dom_singleton_L.
Qed.

(* ================================================================== *)
(** * Part III: further properties of the code *)
(* ================================================================== *)

(** ** The counter at its bounds and over many calls *)

Lemma wrap_int_max : wrap_int (int_max + 1) = int_min.
Proof. reflexivity. Qed.

(** X1.  On a released counter holding [v], [next] stores and returns
    [v + 1], except at the greatest [int], where it wraps to the least
    one; it leaves the mutex released.  On a held mutex it never
    returns. *)
Theorem X1_next_increments_and_wraps (v : Z) :
  int_min ≤ v ≤ int_max →
  next {| seq_locked := false; value := v |} =
    Some (if decide (v = int_max) then int_min else v + 1,
          {| seq_locked := false;
             value := if decide (v = int_max) then int_min else v + 1 |})
  ∧ next {| seq_locked := true; value := v |} = None.
Proof.
  intros Hv. split; [|reflexivity]. rewrite next_unlocked.
  destruct (decide (v = int_max)) as [->|Hne].
  - by rewrite wrap_int_max.
  - rewrite wrap_int_id; [done|]. unfold int_min, int_max in *. lia.
Qed.

Lemma X1_next_increments_and_wraps_witness :
  next {| seq_locked := false; value := 9223372036854775807 |} =
    Some (-9223372036854775808,
          {| seq_locked := false; value := -9223372036854775808 |}).
Proof.
  assert (H : int_min ≤ 9223372036854775807 ≤ int_max) by (vm_compute; split; discriminate).
  destruct (X1_next_increments_and_wraps 9223372036854775807 H) as [Hnext _].
  exact Hnext.
Defined.

Lemma next_calls_from_any (n : nat) (v : Z) :
  int_min ≤ v → v + Z.of_nat n ≤ int_max →
  next_calls n {| seq_locked := false; value := v |} =
  Some (map (λ i : nat, v + Z.of_nat i) (List.seq 1 n),
        {| seq_locked := false; value := v + Z.of_nat n |}).
Proof.
  revert v. induction n as [|n IH]; intros v Hv Hmax.
  - cbn. by rewrite Z.add_0_r.
  - cbn [next_calls]. rewrite next_unlocked.
    rewrite wrap_int_id by (unfold int_min, int_max in *; lia).
    cbn [mbind option_bind]. rewrite IH by (unfold int_min in *; lia).
    cbn [mbind option_bind List.seq map]. do 3 f_equal.
    + rewrite <- (seq_shift n 1), map_map. apply map_ext. intros i. lia.
    + lia.
Qed.

Lemma next_calls_app (m n : nat) (s : sequence) :
  next_calls (m + n) s =
  '(l1, s1) ← next_calls m s;
  '(l2, s2) ← next_calls n s1;
  Some (l1 ++ l2, s2).
Proof.
  revert s. induction m as [|m IH]; intros s.
  - cbn. by destruct (next_calls n s) as [[l2 s2]|].
  - cbn [Nat.add next_calls].
    destruct (next s) as [[i s1]|]; cbn [mbind option_bind]; [|done].
    rewrite IH.
    destruct (next_calls m s1) as [[l1 s2]|]; cbn [mbind option_bind]; [|done].
    by destruct (next_calls n s2) as [[l2 s3]|].
Qed.

(** X2.  From a released counter holding [v], [n] calls of [next] that
    stay within the range of an [int] return [v + 1], ..., [v + n] in this
    order and leave [v + n] stored; and [m + n] calls are [m] calls
    followed by [n] calls on the counter they leave. *)
Theorem X2_next_calls_count_on (m n : nat) (v : Z) :
  int_min ≤ v → v + Z.of_nat n ≤ int_max →
  next_calls n {| seq_locked := false; value := v |} =
    Some (map (λ i : nat, v + Z.of_nat i) (List.seq 1 n),
          {| seq_locked := false; value := v + Z.of_nat n |})
  ∧ ∀ s : sequence,
      next_calls (m + n) s =
      '(l1, s1) ← next_calls m s;
      '(l2, s2) ← next_calls n s1;
      Some (l1 ++ l2, s2).
Proof.
  intros Hv Hmax. split; [by apply next_calls_from_any|].
  intros s. apply next_calls_app.
Qed.

Lemma X2_next_calls_count_on_witness :
  next_calls 3 {| seq_locked := false; value := -2 |} =
    Some ([-1; 0; 1], {| seq_locked := false; value := 1 |}).
Proof.
  assert (H1 : int_min ≤ -2) by (vm_compute; discriminate).
  assert (H2 : -2 + Z.of_nat 3 ≤ int_max) by (vm_compute; discriminate).
  destruct (X2_next_calls_count_on 0 3 (-2) H1 H2) as [Hcalls _].
  exact Hcalls.
Defined.

(** ** Callers of [next] taking turns *)

Lemma returned_values_app l1 l2 :
  returned_values (l1 ++ l2) = returned_values l1 ++ returned_values l2.
Proof. apply omap_app. Qed.

Lemma returned_values_cons p l :
  returned_values (p :: l) =
  match returned_value p with
  | Some i => i :: returned_values l
  | None => returned_values l
  end.
Proof. reflexivity. Qed.

Lemma holders_cons p l :
  holders (p :: l) = ((if holds_lock p then 1 else 0) + holders l)%nat.
Proof. unfold holders. cbn [List.filter]. by destruct (holds_lock p). Qed.

Lemma holders_app l1 l2 : holders (l1 ++ l2) = (holders l1 + holders l2)%nat.
Proof. unfold holders. by rewrite List.filter_app, length_app. Qed.

Lemma pc_ok_idle s k p : holds_lock p = false → pc_ok s k p.
Proof. by destruct p. Qed.

Lemma Forall_pc_ok_idle s k l : holders l = 0%nat → Forall (pc_ok s k) l.
Proof.
  induction l as [|p l IH]; [constructor|].
  rewrite holders_cons. intros H. constructor.
  - apply pc_ok_idle. destruct (holds_lock p); [lia | done].
  - apply IH. lia.
Qed.

Lemma pc_ok_same_value s s' k p : value s' = value s → pc_ok s k p → pc_ok s' k p.
Proof. intros Hv. destruct p; cbn; by rewrite ?Hv. Qed.

Lemma returned_values_length l : (length (returned_values l) ≤ length l)%nat.
Proof.
  induction l as [|p l IH]; [done|].
  rewrite returned_values_cons. destruct (returned_value p); cbn [length]; lia.
Qed.

Lemma seq_snoc_perm (i : Z) (k : nat) (l : list Z) :
  i = Z.of_nat k + 1 →
  l ≡ₚ map Z.of_nat (List.seq 1 k) →
  i :: l ≡ₚ map Z.of_nat (List.seq 1 (S k)).
Proof.
  intros -> Hl. rewrite seq_S, map_app. cbn [map Nat.add].
  rewrite <- Permutation_cons_append, Hl.
  replace (Z.of_nat k + 1) with (Z.of_nat (S k)) by lia. done.
Qed.

(** A statement of one caller keeps the invariant. *)
Lemma next_inv_stmt s l1 p l2 s' p' :
  Z.of_nat (length (l1 ++ p :: l2)) ≤ int_max →
  next_inv (s, l1 ++ p :: l2) →
  next_stmt s p = Some (s', p') →
  next_inv (s', l1 ++ p' :: l2).
Proof.
  intros Hlen (Hperm & Hhold & Hok & Hfree) Hstmt.
  cbn [fst snd] in *.
  rewrite returned_values_app, returned_values_cons in Hperm, Hok, Hfree.
  rewrite holders_app, holders_cons in Hhold.
  apply Forall_app in Hok as [Hok1 Hok2]. apply Forall_cons in Hok2 as [Hp Hok2].
  pose proof (returned_values_length l1) as Hr1.
  pose proof (returned_values_length l2) as Hr2.
  rewrite length_app in Hlen. cbn [length] in Hlen.
  unfold next_inv. cbn [fst snd].
  rewrite returned_values_app, returned_values_cons, holders_app, holders_cons.
  destruct p as [| | |i|i]; cbn [next_stmt] in Hstmt.
  - (* Lock *)
    unfold Lock in Hstmt. destruct (seq_locked s) eqn:Hl; [done|].
    injection Hstmt as <- <-. cbn [returned_value holds_lock seq_locked value] in *.
    specialize (Hfree eq_refl).
    split; [done|]. split; [lia|]. split; [|done].
    apply Forall_app. split; [|constructor]; try done.
    all: eapply Forall_impl; [eassumption|]; intros q; by apply pc_ok_same_value.
  - (* value++ *)
    injection Hstmt as <- <-. cbn [returned_value holds_lock seq_locked value pc_ok] in *.
    destruct (seq_locked s) eqn:Hl; [|lia].
    split; [done|]. split; [lia|]. split; [|done].
    apply Forall_app. split; [|constructor].
    { apply Forall_pc_ok_idle. lia. }
    { cbn [pc_ok value]. rewrite Hp, wrap_int_id; [done|].
      rewrite length_app in *. unfold int_min, int_max in *. lia. }
    apply Forall_pc_ok_idle. lia.
  - (* i := value *)
    injection Hstmt as <- <-. cbn [returned_value holds_lock seq_locked value pc_ok] in *.
    split; [done|]. split; [done|]. split; [|done].
    apply Forall_app. split; [|constructor]; done.
  - (* Unlock *)
    unfold Unlock in Hstmt. destruct (seq_locked s) eqn:Hl; [|done].
    injection Hstmt as <- <-. cbn [returned_value holds_lock seq_locked value pc_ok] in *.
    destruct Hp as [Hv ->].
    rewrite !length_app in *. cbn [length].
    replace (length (returned_values l1) + S (length (returned_values l2)))%nat
      with (S (length (returned_values l1) + length (returned_values l2))) by lia.
    split.
    { rewrite <- Permutation_middle. apply seq_snoc_perm; [lia|done]. }
    split; [lia|]. split; [|intros _; lia].
    apply Forall_app. split; [|constructor]; try done.
    all: apply Forall_pc_ok_idle; lia.
  - done.
Qed.

Lemma sched_step_inv (st : sequence * list next_pc) (t : nat) :
  Z.of_nat (length st.2) ≤ int_max →
  next_inv st →
  next_inv (sched_step st t) ∧ length (sched_step st t).2 = length st.2.
Proof.
  destruct st as [s ths]. cbn [fst snd]. intros Hlen Hinv.
  unfold sched_step. cbn [fst snd].
  destruct (ths !! t) as [p|] eqn:Ht; [|done].
  destruct (next_stmt s p) as [[s' p']|] eqn:Hstmt; [|done].
  cbn [snd]. rewrite length_insert. split; [|done].
  pose proof (lookup_lt_Some _ _ _ Ht) as Hlt.
  rewrite insert_take_drop by done.
  rewrite <- (take_drop_middle _ _ _ Ht) in Hlen, Hinv.
  by eapply next_inv_stmt.
Qed.

Lemma run_schedule_inv (sched : list nat) (st : sequence * list next_pc) :
  Z.of_nat (length st.2) ≤ int_max →
  next_inv st →
  next_inv (run_schedule sched st) ∧ length (run_schedule sched st).2 = length st.2.
Proof.
  revert st. induction sched as [|t sched IH]; intros st Hlen Hinv; [done|].
  cbn [run_schedule fold_left].
  destruct (sched_step_inv st t Hlen Hinv) as [Hinv' Hlen'].
  destruct (IH (sched_step st t)) as [Hinv'' Hlen'']; [by rewrite Hlen' | done |].
  split; [done|]. by rewrite <- Hlen'.
Qed.

Lemma next_inv_initial (N : nat) : next_inv (new_sequence, replicate N AtLock).
Proof.
  assert (Hr : returned_values (replicate N AtLock) = []).
  { induction N as [|N IH]; [done|]. cbn [replicate]. by rewrite returned_values_cons. }
  assert (Hh : holders (replicate N AtLock) = 0%nat).
  { clear Hr. induction N as [|N IH]; [done|]. cbn [replicate].
    rewrite holders_cons, IH. reflexivity. }
  unfold next_inv. cbn [fst snd]. rewrite Hr, Hh. cbn [length].
  split; [done|]. split; [done|]. split; [|done].
  by apply Forall_pc_ok_idle.
Qed.

Lemma returned_values_all_done (ths : list next_pc) :
  Forall (λ p, ∃ i, p = Done i) ths →
  length (returned_values ths) = length ths ∧ holders ths = 0%nat.
Proof.
  induction 1 as [|p l [i ->] _ [IH1 IH2]]; [done|].
  rewrite returned_values_cons, holders_cons. cbn. by rewrite IH1, IH2.
Qed.

(** The four statements of one caller, run alone, are [next]. *)
Lemma next_stmt_four (s : sequence) :
  next s =
  '(s1, p1) ← next_stmt s AtLock;
  '(s2, p2) ← next_stmt s1 p1;
  '(s3, p3) ← next_stmt s2 p2;
  '(s4, p4) ← next_stmt s3 p3;
  i ← returned_value p4;
  Some (i, s4).
Proof. destruct s as [[] v]; reflexivity. Qed.

(** X3.  [N] callers of [next] on a fresh counter, their statements
    interleaved by any schedule: the four statements of one caller run alone
    are [next]; at every moment the values returned so far are 1, ..., [k]
    for the number [k] of callers that have returned, so no two callers get
    the same value; and when all have returned, the values are 1, ..., [N],
    [N] is stored and the mutex is released. *)
Theorem X3_interleaved_next_calls_return_distinct_values (N : nat) (sched : list nat) :
  Z.of_nat N ≤ int_max →
  (∀ s : sequence,
      next s =
      '(s1, p1) ← next_stmt s AtLock;
      '(s2, p2) ← next_stmt s1 p1;
      '(s3, p3) ← next_stmt s2 p2;
      '(s4, p4) ← next_stmt s3 p3;
      i ← returned_value p4;
      Some (i, s4))
  ∧ returned_values (run_schedule sched (new_sequence, replicate N AtLock)).2
      ≡ₚ map Z.of_nat
           (List.seq 1
              (length (returned_values
                         (run_schedule sched (new_sequence, replicate N AtLock)).2)))
  ∧ NoDup (returned_values (run_schedule sched (new_sequence, replicate N AtLock)).2)
  ∧ (Forall (λ p, ∃ i, p = Done i)
            (run_schedule sched (new_sequence, replicate N AtLock)).2 →
     returned_values (run_schedule sched (new_sequence, replicate N AtLock)).2
       ≡ₚ map Z.of_nat (List.seq 1 N)
     ∧ (run_schedule sched (new_sequence, replicate N AtLock)).1
       = {| seq_locked := false; value := Z.of_nat N |}).
Proof.
  intros HN. split; [exact next_stmt_four|].
  destruct (run_schedule_inv sched (new_sequence, replicate N AtLock))
    as [(Hperm & Hhold & _ & Hfree) Hlen].
  { cbn [snd]. by rewrite length_replicate. }
  { apply next_inv_initial. }
  cbn [snd] in Hlen. rewrite length_replicate in Hlen.
  split; [exact Hperm|]. split.
  { rewrite Hperm. apply NoDup_fmap_2; [intros x y; lia | apply NoDup_seq]. }
  intros Hdone. destruct (returned_values_all_done _ Hdone) as [Hall Hnone].
  rewrite Hall, Hlen in Hperm, Hfree. split; [exact Hperm|].
  rewrite Hnone in Hhold.
  destruct (run_schedule sched (new_sequence, replicate N AtLock)).1 as [locked v].
  cbn [seq_locked value] in *. destruct locked; [done|].
  by rewrite Hfree.
Qed.

Lemma X3_interleaved_next_calls_return_distinct_values_witness :
  run_schedule [0; 1; 0; 1; 0; 0; 1; 1; 1; 1]%nat (new_sequence, replicate 2 AtLock)
    = ({| seq_locked := false; value := 2 |}, [Done 1; Done 2])
  ∧ returned_values
      (run_schedule [0; 1; 0; 1; 0; 0; 1; 1; 1; 1]%nat
         (new_sequence, replicate 2 AtLock)).2
    ≡ₚ [1; 2].
Proof.
  split; [reflexivity|].
  assert (H2 : Z.of_nat 2 ≤ int_max) by (vm_compute; discriminate).
  destruct (X3_interleaved_next_calls_return_distinct_values 2
              [0; 1; 0; 1; 0; 0; 1; 1; 1; 1]%nat H2) as (_ & _ & _ & Hdone).
  apply Hdone. repeat constructor; eexists; reflexivity.
Defined.

Lemma holders_lookup (ths : list next_pc) (t : nat) (p : next_pc) :
  ths !! t = Some p → holds_lock p = true → (1 ≤ holders ths)%nat.
Proof.
  intros Ht Hp. rewrite <- (take_drop_middle _ _ _ Ht).
  rewrite holders_app, holders_cons, Hp. lia.
Qed.

Lemma holders_positive (ths : list next_pc) :
  (1 ≤ holders ths)%nat → ∃ t p, ths !! t = Some p ∧ holds_lock p = true.
Proof.
  induction ths as [|q ths IH]; [cbn; lia|].
  rewrite holders_cons. destruct (holds_lock q) eqn:Hq.
  - intros _. by exists 0%nat, q.
  - intros H. destruct IH as (t & p & Ht & Hp); [lia|]. by exists (S t), p.
Qed.

(** X4.  However the statements of [N] callers of [next] have been
    interleaved so far, the callers are never stuck: as long as one of them
    has not returned, one of them can take its next statement; and a caller
    that has come to its [Unlock] finds the mutex held, so the fatal error
    of unlocking a free mutex does not happen. *)
Theorem X4_interleaved_next_calls_never_stuck (N : nat) (sched : list nat) :
  Z.of_nat N ≤ int_max →
  ((∃ t p, (run_schedule sched (new_sequence, replicate N AtLock)).2 !! t = Some p
           ∧ returned_value p = None) →
   ∃ t p s' p',
     (run_schedule sched (new_sequence, replicate N AtLock)).2 !! t = Some p
     ∧ next_stmt (run_schedule sched (new_sequence, replicate N AtLock)).1 p
       = Some (s', p'))
  ∧ (∀ (t : nat) (i : Z),
        (run_schedule sched (new_sequence, replicate N AtLock)).2 !! t
          = Some (AtUnlock i) →
        ∃ s', next_stmt (run_schedule sched (new_sequence, replicate N AtLock)).1
                (AtUnlock i) = Some (s', Done i)).
Proof.
  intros HN.
  destruct (run_schedule_inv sched (new_sequence, replicate N AtLock))
    as [(_ & Hhold & _ & _) _].
  { cbn [snd]. by rewrite length_replicate. }
  { apply next_inv_initial. }
  destruct (run_schedule sched (new_sequence, replicate N AtLock)) as [[locked v] ths].
  cbn [fst snd seq_locked] in *.
  assert (Hunlock : ∀ t i, ths !! t = Some (AtUnlock i) → locked = true).
  { intros t i Ht. pose proof (holders_lookup _ _ _ Ht eq_refl).
    destruct locked; [done | lia]. }
  split.
  - intros (t & p & Ht & Hp). destruct locked.
    + destruct (holders_positive ths) as (t' & q & Ht' & Hq); [lia|].
      exists t', q. destruct q; try discriminate; cbn; eauto.
    + exists t, p. destruct p; try discriminate; cbn; eauto.
      pose proof (holders_lookup _ _ _ Ht eq_refl). lia.
  - intros t i Ht. rewrite (Hunlock t i Ht). cbn. eauto.
Qed.

Lemma X4_interleaved_next_calls_never_stuck_witness :
  ∃ t p s' p',
    (run_schedule [0; 1; 0]%nat (new_sequence, replicate 2 AtLock)).2 !! t = Some p
    ∧ next_stmt (run_schedule [0; 1; 0]%nat (new_sequence, replicate 2 AtLock)).1 p
      = Some (s', p').
Proof.
  assert (H2 : Z.of_nat 2 ≤ int_max) by (vm_compute; discriminate).
  destruct (X4_interleaved_next_calls_never_stuck 2 [0; 1; 0]%nat H2) as [Hmove _].
  apply Hmove. exists 1%nat, AtLock. split; reflexivity.
Defined.

(** ** Step selection as a whole *)

Lemma exclude_step_Name names s :
  engine.Name (exclude_step names s) = engine.Name s.
Proof.
  rewrite exclude_step_spec.
  destruct (decide (engine.Name s = "clone")); [done|].
  by destruct (decide (engine.Name s ∈ names)).
Qed.

Lemma resume_names_after_exclude names s :
  engine.Name s ≠ "clone" →
  resume_names (exclude_step names s) names = exclude_step names s.
Proof.
  intros Hc. rewrite resume_names_spec, exclude_step_Name, exclude_step_spec.
  rewrite (decide_False (P := engine.Name s = "clone")) by done.
  by destruct (decide (engine.Name s ∈ names)).
Qed.

Lemma resume_range_after_exclude resumeAt names steps :
  resume_range resumeAt names (map (exclude_step names) steps) =
  map (exclude_step names) steps.
Proof.
  induction steps as [|s steps IH]; [done|].
  cbn [map resume_range]. rewrite exclude_step_Name.
  destruct (String.eqb (engine.Name s) resumeAt); [done|].
  destruct (String.eqb_spec (engine.Name s) "clone"); rewrite IH; [done|].
  by rewrite resume_names_after_exclude.
Qed.

Lemma resume_range_no_names resumeAt steps :
  resume_range resumeAt [] steps = steps.
Proof.
  induction steps as [|s steps IH]; [done|]. cbn [resume_range resume_names].
  destruct (String.eqb (engine.Name s) resumeAt); [done|].
  destruct (String.eqb (engine.Name s) "clone"); by rewrite IH.
Qed.

Lemma select_steps_two_phases
  (commy : execCommand) (resumeAt : string) (steps : list engine.Step) :
  select_steps commy resumeAt steps = exclude_phase commy (include_phase commy steps).
Proof.
  unfold select_steps, resume_phase.
  destruct (negb (String.eqb resumeAt "")); [|done].
  unfold exclude_phase.
  destruct (Exclude commy) as [|e exc]; cbn [length Nat.ltb Nat.leb].
  - apply resume_range_no_names.
  - apply resume_range_after_exclude.
Qed.

(** X10.  The resume-at phase finds nothing left to do: every step it would
    mark has been marked by the exclude phase.  The selection is the same
    for every resume-at name, and with neither an include nor an exclude
    list it changes nothing, whatever the resume-at name. *)
Theorem X10_select_steps_ignores_resume_at
  (commy : execCommand) (resumeAt : string) (steps : list engine.Step) :
  select_steps commy resumeAt steps = exclude_phase commy (include_phase commy steps)
  ∧ select_steps commy resumeAt steps = select_steps commy "" steps
  ∧ (Include commy = [] → Exclude commy = [] →
       select_steps commy resumeAt steps = steps).
Proof.
  split; [apply select_steps_two_phases|].
  split; [by rewrite !select_steps_two_phases|].
  intros Hinc Hexc. rewrite select_steps_two_phases.
  unfold exclude_phase, include_phase.
  by rewrite Hinc, Hexc.
Qed.

Lemma X10_select_steps_ignores_resume_at_witness :
  select_steps (sample_command [] []) "test"
    (map sample_step ["clone"; "build"; "test"])
  = map sample_step ["clone"; "build"; "test"].
Proof.
  destruct (X10_select_steps_ignores_resume_at (sample_command [] []) "test"
              (map sample_step ["clone"; "build"; "test"])) as (_ & _ & Hid).
  apply Hid; reflexivity.
Defined.

Lemma set_RunPolicy_same (s : engine.Step) :
  engine.set_RunPolicy (engine.RunPolicy s) s = s.
Proof. by destruct s. Qed.

(** X11.  Selecting twice is selecting once. *)
Theorem X11_select_steps_idempotent
  (commy : execCommand) (resumeAt : string) (steps : list engine.Step) :
  select_steps commy resumeAt (select_steps commy resumeAt steps) =
  select_steps commy resumeAt steps.
Proof.
  rewrite !select_steps_two_phases.
  rewrite !include_exclude_pointwise, map_map. apply map_ext. intros s.
  destruct (decide (engine.Name s = "clone")) as [Hc|Hc].
  { by rewrite decide_True. }
  destruct (decide ((Include commy ≠ [] ∧ engine.Name s ∉ Include commy)
                    ∨ engine.Name s ∈ Exclude commy)) as [Hout|Hin].
  - rewrite set_RunPolicy_Name.
    rewrite (decide_False (P := engine.Name s = "clone")) by done.
    by rewrite (decide_True (P := _ ∨ _)) by done.
  - rewrite (decide_False (P := engine.Name s = "clone")) by done.
    by rewrite (decide_False (P := _ ∨ _)) by done.
Qed.

(** X12.  Selection only ever skips: each step comes out as it went in or
    marked [RunNever], a step that went in marked [RunNever] comes out
    unchanged, and so the steps left to run are no more than before. *)
Theorem X12_select_steps_only_skips
  (commy : execCommand) (resumeAt : string) (steps : list engine.Step) :
  (∀ (i : nat) (s : engine.Step),
      steps !! i = Some s →
      (select_steps commy resumeAt steps !! i = Some s
       ∨ select_steps commy resumeAt steps !! i
         = Some (engine.set_RunPolicy runtime.RunNever s))
      ∧ (engine.RunPolicy s = runtime.RunNever →
         select_steps commy resumeAt steps !! i = Some s))
  ∧ (length (runnable (select_steps commy resumeAt steps)) ≤ length (runnable steps))%nat.
Proof.
  rewrite select_steps_two_phases, include_exclude_pointwise.
  set (f := λ s : engine.Step,
         if decide (engine.Name s = "clone") then s
         else if decide ((Include commy ≠ [] ∧ engine.Name s ∉ Include commy)
                         ∨ engine.Name s ∈ Exclude commy)
              then engine.set_RunPolicy runtime.RunNever s else s).
  assert (Hf : ∀ s, f s = s ∨ f s = engine.set_RunPolicy runtime.RunNever s).
  { intros s. unfold f. destruct (decide _); [by left|].
    destruct (decide _); [by right | by left]. }
  split.
  - intros i s Hi. change (map f steps) with (f <$> steps).
    rewrite list_lookup_fmap, Hi. cbn [fmap option_fmap option_map].
    split.
    + destruct (Hf s) as [-> | ->]; [by left | by right].
    + intros Hnever. destruct (Hf s) as [-> | ->]; [done|].
      by rewrite <- Hnever, set_RunPolicy_same.
  - unfold runnable. induction steps as [|s steps IH]; [done|].
    cbn [map List.filter].
    destruct (Hf s) as [-> | ->].
    + destruct (negb _); cbn [length]; lia.
    + cbn [engine.set_RunPolicy engine.RunPolicy runtime.RunPolicy_eqb negb].
      destruct (negb _); cbn [length]; lia.
Qed.

Lemma X12_select_steps_only_skips_witness :
  select_steps (sample_command ["build"] []) ""
    (map sample_step ["clone"; "build"; "test"]) !! 2%nat
  = Some (engine.set_RunPolicy runtime.RunNever (sample_step "test"))
  ∧ select_steps (sample_command ["build"] []) ""
      [engine.set_RunPolicy runtime.RunNever (sample_step "build")] !! 0%nat
    = Some (engine.set_RunPolicy runtime.RunNever (sample_step "build")).
Proof.
  split; [reflexivity|].
  destruct (X12_select_steps_only_skips (sample_command ["build"] []) ""
              [engine.set_RunPolicy runtime.RunNever (sample_step "build")])
    as [Hpt _].
  destruct (Hpt 0%nat (engine.set_RunPolicy runtime.RunNever (sample_step "build"))
              eq_refl) as [_ Hkeep].
  apply Hkeep. reflexivity.
Defined.

(** ** The lines of [split] *)

Lemma genSplit_LF_nonempty s : GoStrings.genSplit LF 0 s ≠ [].
Proof.
  intros H. pose proof (genSplit_LF_length s) as Hlen. rewrite H in Hlen. discriminate.
Qed.

Lemma genSplit_LF_lines s :
  Forall (λ part, GoStrings.CountByte part LF_char = 0%nat) (GoStrings.genSplit LF 0 s).
Proof.
  induction s as [|c s IH]; [by repeat constructor|].
  rewrite genSplit_LF_cons. destruct (Ascii.eqb c LF_char) eqn:Hc.
  - by constructor.
  - destruct (GoStrings.genSplit LF 0 s) as [|h t]; cbn [GoStrings.cons_head].
    + repeat constructor. cbn. by rewrite Hc.
    + inversion IH as [|? ? Hh Ht]; subst. constructor; [|done].
      cbn [GoStrings.CountByte]. by rewrite Hc, Hh.
Qed.

Lemma concat_cons_head c l :
  l ≠ [] → String.concat LF (GoStrings.cons_head c l) = String c (String.concat LF l).
Proof. destruct l as [|h [|h' t]]; [done| |]; reflexivity. Qed.

Lemma concat_genSplit_LF s : String.concat LF (GoStrings.genSplit LF 0 s) = s.
Proof.
  induction s as [|c s IH]; [reflexivity|].
  rewrite genSplit_LF_cons. destruct (Ascii.eqb_spec c LF_char) as [->|Hc].
  - pose proof (genSplit_LF_nonempty s) as Hne.
    destruct (GoStrings.genSplit LF 0 s) as [|h t] eqn:Hs; [done|].
    change (String.concat LF ("" :: h :: t))
      with ("" ++ LF ++ String.concat LF (h :: t))%string.
    rewrite IH. reflexivity.
  - rewrite concat_cons_head by apply genSplit_LF_nonempty. by rewrite IH.
Qed.

(** X5.  No line that [split] returns holds a newline. *)
Theorem X5_split_lines_hold_no_newline (b : list byte) :
  Forall (λ part, GoStrings.CountByte part LF_char = 0%nat) (split b).
Proof. unfold split. apply genSplit_LF_lines. Qed.

(** X6.  Joining the lines of [split b] with newlines gives the input back,
    less its one trailing newline when it has one. *)
Theorem X6_split_join_round_trip (b : list byte) :
  String.concat LF (split b) = string_of_list_byte (strip_one_trailing_newline b).
Proof.
  unfold split. rewrite TrimSuffix_LF_bytes.
  change (GoStrings.Split ?s LF) with (GoStrings.genSplit LF 0 s).
  apply concat_genSplit_LF.
Qed.

Lemma string_of_list_byte_app (a b : list byte) :
  string_of_list_byte (a ++ b) = (string_of_list_byte a ++ string_of_list_byte b)%string.
Proof.
  induction a as [|c a IH]; [reflexivity|].
  cbn [app]. rewrite !string_of_list_byte_cons, IH. reflexivity.
Qed.

Lemma genSplit_LF_app (x y : string) :
  GoStrings.genSplit LF 0 (x ++ LF ++ y)%string =
  GoStrings.genSplit LF 0 x ++ GoStrings.genSplit LF 0 y.
Proof.
  induction x as [|c x IH].
  - change ("" ++ LF ++ y)%string with (String LF_char y).
    rewrite genSplit_LF_cons, Ascii.eqb_refl. reflexivity.
  - change (String c x ++ LF ++ y)%string with (String c (x ++ LF ++ y)%string).
    rewrite !genSplit_LF_cons, IH.
    destruct (Ascii.eqb c LF_char); [reflexivity|].
    pose proof (genSplit_LF_nonempty x) as Hne.
    by destruct (GoStrings.genSplit LF 0 x).
Qed.

Lemma strip_one_trailing_newline_snoc (x : list byte) :
  strip_one_trailing_newline (x ++ [x0a]) = x.
Proof.
  induction x as [|c x IH]; [reflexivity|].
  cbn [app]. destruct x as [|d x]; [reflexivity|].
  change (strip_one_trailing_newline (c :: (d :: x) ++ [x0a]))
    with (c :: strip_one_trailing_newline ((d :: x) ++ [x0a])).
  by rewrite IH.
Qed.

Lemma strip_one_trailing_newline_app (x y : list byte) :
  y ≠ [] →
  strip_one_trailing_newline (x ++ y) = x ++ strip_one_trailing_newline y.
Proof.
  intros Hy. induction x as [|c x IH]; [reflexivity|].
  cbn [app]. destruct (x ++ y) as [|d r] eqn:Hxy.
  - by destruct x, y.
  - change (strip_one_trailing_newline (c :: d :: r))
      with (c :: strip_one_trailing_newline (d :: r)).
    by rewrite IH.
Qed.

Lemma split_line_aligned (b1 b2 : list byte) :
  b2 ≠ [] →
  split (b1 ++ [x0a] ++ b2) = split (b1 ++ [x0a]) ++ split b2.
Proof.
  intros Hb2. unfold split. rewrite !TrimSuffix_LF_bytes.
  change (GoStrings.Split ?s LF) with (GoStrings.genSplit LF 0 s).
  rewrite strip_one_trailing_newline_snoc.
  rewrite strip_one_trailing_newline_app by done.
  rewrite (strip_one_trailing_newline_app [x0a]) by done.
  rewrite !string_of_list_byte_app.
  apply genSplit_LF_app.
Qed.

(** X7.  Input handed over in chunks that end at a line end gives the
    same lines as the input handed over at once: for a non-empty [b2], the
    lines of [b1 ++ "\n" ++ b2] are those of [b1 ++ "\n"] followed by those
    of [b2]. *)
Theorem X7_split_of_line_aligned_chunks (b1 b2 : list byte) :
  b2 ≠ [] →
  split (b1 ++ [x0a] ++ b2) = split (b1 ++ [x0a]) ++ split b2.
Proof. apply split_line_aligned. Qed.

Lemma X7_split_of_line_aligned_chunks_witness :
  split (list_byte_of_string "a" ++ [x0a] ++ list_byte_of_string "b")
  = split (list_byte_of_string "a" ++ [x0a]) ++ split (list_byte_of_string "b").
Proof.
  apply (X7_split_of_line_aligned_chunks (list_byte_of_string "a")
           (list_byte_of_string "b")).
  discriminate.
Defined.

(** ** A [Write] that fails *)

Section WriteFailure.
Context {E : External}.

Lemma Write_range_failure (j : jsonlogger) (parts : list string)
  (σ : jSONFileStreamer) (e : error) :
  (Write_range j parts σ).1 = Some e →
  ∃ (k : nat) (part : string),
    parts !! k = Some part
    ∧ fw_records (writer (Write_range j parts σ).2) =
        fw_records (writer σ) ++ map (log_record j) (take k parts)
    ∧ add_fault
        {| fw_path := fw_path (writer σ);
           fw_records := fw_records (writer σ) ++ map (log_record j) (take k parts) |}
        (log_record j part) = Some e.
Proof.
  revert σ. induction parts as [|p rest IH]; intros σ; [discriminate|].
  cbn [Write_range]. unfold Add.
  destruct (add_fault (writer σ) (log_record j p)) as [e'|] eqn:Hadd.
  - cbn [fst snd writer]. intros [= ->]. exists 0%nat, p.
    cbn [take map]. rewrite app_nil_r. split; [done|]. split; [done|].
    by destruct (writer σ).
  - intros Hfail. destruct (IH _ Hfail) as (k & part & Hk & Hrec & Hat).
    cbn [writer fw_records fw_path] in Hrec, Hat.
    exists (S k), part. cbn [take map]. rewrite <- app_assoc in Hrec, Hat.
    done.
Qed.

End WriteFailure.

(** X8.  When [Write] returns an error, the lines before the one whose
    append failed have their records in the store, in order; the failing
    line and the lines after it have none; the error is the one [Add] gave
    for that line; the count returned is still the length of the input and
    the counters are as they were. *)
Theorem X8_write_stops_at_first_failed_append
  (E : External) (j : jsonlogger) (b : list byte) (σ : jSONFileStreamer) (e : error) :
  (Write j b σ).1.2 = Some e →
  (∃ (k : nat) (part : string),
      split b !! k = Some part
      ∧ fw_records (writer (Write j b σ).2) =
          fw_records (writer σ) ++ map (log_record j) (take k (split b))
      ∧ add_fault
          {| fw_path := fw_path (writer σ);
             fw_records :=
               fw_records (writer σ) ++ map (log_record j) (take k (split b)) |}
          (log_record j part) = Some e)
  ∧ (Write j b σ).1.1 = Z.of_nat (length b)
  ∧ seq (Write j b σ).2 = seq σ
  ∧ col (Write j b σ).2 = col σ.
Proof.
  rewrite Write_unfold. cbn [fst snd]. intros Hfail.
  destruct (Write_range_prefix j (split b) σ) as (_ & _ & _ & _ & Hseq & Hcol & _).
  split; [by apply Write_range_failure|]. done.
Qed.

Lemma X8_write_stops_at_first_failed_append_witness :
  (@Write full_after_one sample_logger abc_terminated sample_streamer).1
    = (6, Some (Err "no space left on device"))
  ∧ ∃ (k : nat) (part : string),
      split abc_terminated !! k = Some part
      ∧ fw_records (writer (@Write full_after_one sample_logger abc_terminated
                              sample_streamer).2)
        = fw_records (writer sample_streamer)
          ++ map (log_record sample_logger) (take k (split abc_terminated))
      ∧ @add_fault full_after_one
          {| fw_path := fw_path (writer sample_streamer);
             fw_records :=
               fw_records (writer sample_streamer)
               ++ map (log_record sample_logger) (take k (split abc_terminated)) |}
          (log_record sample_logger part) = Some (Err "no space left on device").
Proof.
  split; [reflexivity|].
  apply (X8_write_stops_at_first_failed_append full_after_one sample_logger
           abc_terminated sample_streamer (Err "no space left on device")).
  reflexivity.
Defined.

Lemma Stream_range_Some (steps : list drone.Step) (n : string) (c : drone.Step) :
  Stream_range steps n = Some c → c ∈ steps ∧ drone.Name c = n.
Proof.
  induction steps as [|s steps IH]; [done|]. cbn [Stream_range].
  destruct (String.eqb_spec (drone.Name s) n) as [Heq|Hne].
  - intros [= ->]. split; [left | done].
  - intros H. destruct (IH H). split; [by right | done].
Qed.

(** X9.  [Stream] runs into the nil step exactly when no step of the
    roster has the requested name; a sink it returns carries the requested
    name and the number of a roster step of that name. *)
Theorem X9_stream_fails_exactly_without_match
  (j : jSONFileStreamer) (stage : drone.Stage) (stepName : string) :
  (Stream j stage stepName = None
   ↔ ∀ s, s ∈ drone.Steps stage → drone.Name s ≠ stepName)
  ∧ (∀ l : jsonlogger,
        Stream j stage stepName = Some l →
        name l = stepName
        ∧ ∃ s, s ∈ drone.Steps stage ∧ drone.Name s = stepName
               ∧ number l = drone.Number s).
Proof.
  unfold Stream. split.
  - rewrite <- Stream_range_none.
    destruct (Stream_range (drone.Steps stage) stepName); by split.
  - intros l Hl.
    destruct (Stream_range (drone.Steps stage) stepName) as [c|] eqn:Hc; [|done].
    injection Hl as <-. cbn [name number].
    destruct (Stream_range_Some _ _ _ Hc) as [Hin Hn].
    split; [done|]. by exists c.
Qed.

Lemma X9_stream_fails_exactly_without_match_witness :
  Stream sample_streamer sample_roster_stage "deploy" = None.
Proof.
  destruct (X9_stream_fails_exactly_without_match sample_streamer
              sample_roster_stage "deploy") as [[_ Hnone] _].
  apply Hnone. intros s Hs. cbn in Hs.
  repeat (apply elem_of_cons in Hs as [->|Hs]; [discriminate|]).
  by apply elem_of_nil in Hs.
Defined.

(** X22.  Two [Write]s one after the other, the first of input that ends
    with a newline and the second of non-empty input, leave the records in
    the store that one [Write] of the two inputs joined leaves, all three
    being without a failed append: the lines of the first input followed by
    the lines of the second. *)
Theorem X22_line_aligned_writes_compose
  (E : External) (j : jsonlogger) (b1 b2 : list byte) (σ : jSONFileStreamer) :
  b2 ≠ [] →
  (Write j (b1 ++ [x0a]) σ).1.2 = None →
  (Write j b2 (Write j (b1 ++ [x0a]) σ).2).1.2 = None →
  (Write j (b1 ++ [x0a] ++ b2) σ).1.2 = None →
  fw_records (writer (Write j b2 (Write j (b1 ++ [x0a]) σ).2).2)
    = fw_records (writer (Write j (b1 ++ [x0a] ++ b2) σ).2)
  ∧ fw_records (writer (Write j b2 (Write j (b1 ++ [x0a]) σ).2).2)
    = fw_records (writer σ)
      ++ map (log_record j) (split (b1 ++ [x0a]))
      ++ map (log_record j) (split b2).
Proof.
  intros Hb2. rewrite !Write_unfold. cbn [fst snd]. intros H1 H2 H12.
  rewrite (Write_range_success j (split b2)) by done.
  rewrite (Write_range_success j (split (b1 ++ [x0a]))) by done.
  rewrite (Write_range_success j (split (b1 ++ [x0a] ++ b2))) by done.
  rewrite split_line_aligned by done.
  rewrite map_app, <- app_assoc. done.
Qed.

Lemma X22_line_aligned_writes_compose_witness :
  fw_records
    (writer (@Write quiet sample_logger (list_byte_of_string "b")
               (@Write quiet sample_logger (list_byte_of_string "a" ++ [x0a])
                  sample_streamer).2).2)
  = fw_records
      (writer (@Write quiet sample_logger
                 (list_byte_of_string "a" ++ [x0a] ++ list_byte_of_string "b")
                 sample_streamer).2).
Proof.
  destruct (X22_line_aligned_writes_compose quiet sample_logger
              (list_byte_of_string "a") (list_byte_of_string "b") sample_streamer)
    as [Hsame _]; [discriminate | reflexivity | reflexivity | reflexivity |].
  exact Hsame.
Defined.

(** ** The roster and the streams opened on it *)

Lemma roster_entry_Name id n s : drone.Name (roster_entry id n s) = engine.Name s.
Proof. reflexivity. Qed.

Lemma Stream_range_roster (id : Z) (o : nat) (pre post : list engine.Step)
  (s : engine.Step) :
  (∀ s', s' ∈ pre → engine.Name s' ≠ engine.Name s) →
  Stream_range
    (imap (λ (k : nat) (x : engine.Step), roster_entry id (Z.of_nat (o + k) + 1) x)
          (pre ++ s :: post))
    (engine.Name s)
  = Some (roster_entry id (Z.of_nat (o + length pre) + 1) s).
Proof.
  revert o. induction pre as [|x pre IH]; intros o Hpre.
  - cbn [app imap Stream_range length]. rewrite roster_entry_Name, String.eqb_refl.
    reflexivity.
  - cbn [app imap Stream_range length]. rewrite roster_entry_Name.
    assert (Hx : engine.Name x ≠ engine.Name s) by (apply Hpre; left).
    rewrite (proj2 (String.eqb_neq _ _) Hx).
    rewrite (imap_ext _ (λ (k : nat) (y : engine.Step),
                           roster_entry id (Z.of_nat (S o + k) + 1) y)).
    + rewrite IH by (intros s' Hs'; apply Hpre; by right).
      do 2 f_equal. lia.
    + intros k y _. cbn. do 2 f_equal. lia.
Qed.

Lemma stage_with_roster_fresh (commy : execCommand) (steps : list engine.Step) :
  drone.Steps (Stage commy) = [] →
  drone.Steps (stage_with_roster commy steps) =
  imap (λ (k : nat) (x : engine.Step),
          roster_entry (drone.ID (Stage commy)) (Z.of_nat (0 + k) + 1) x)
       (runnable steps).
Proof.
  intros Hempty. unfold stage_with_roster. cbn [drone.Steps].
  rewrite roster_range_spec, Hempty. reflexivity.
Qed.

(** X13.  On a roster that starts empty, the step that is [k]-th among the
    steps not marked [RunNever], and the first of them with its name, gets
    a stream: [Stream] returns the sink with its name and the number
    [k + 1]. *)
Theorem X13_stream_of_runnable_step
  (j : jSONFileStreamer) (commy : execCommand) (steps : list engine.Step)
  (k : nat) (s : engine.Step) :
  drone.Steps (Stage commy) = [] →
  runnable steps !! k = Some s →
  (∀ (k' : nat) (s' : engine.Step),
      (k' < k)%nat → runnable steps !! k' = Some s' → engine.Name s' ≠ engine.Name s) →
  Stream j (stage_with_roster commy steps) (engine.Name s) =
    Some {| name := engine.Name s; number := Z.of_nat k + 1 |}.
Proof.
  intros Hempty Hk Hfirst. unfold Stream.
  rewrite stage_with_roster_fresh by done.
  rewrite <- (take_drop_middle _ _ _ Hk).
  rewrite Stream_range_roster.
  - cbn [roster_entry drone.Name drone.Number].
    rewrite length_take_le by (apply lookup_lt_Some in Hk; lia). reflexivity.
  - intros s' Hs'. apply list_elem_of_lookup in Hs' as [k' Hk'].
    pose proof (lookup_lt_Some _ _ _ Hk') as Hlt.
    rewrite length_take in Hlt.
    rewrite lookup_take_lt in Hk' by lia.
    apply (Hfirst k'); [lia | done].
Qed.

Lemma X13_stream_of_runnable_step_witness :
  Stream sample_streamer
    (stage_with_roster (sample_command [] ["build"])
       (select_steps (sample_command [] ["build"]) ""
          (map sample_step ["clone"; "build"; "test"])))
    "test"
  = Some {| name := "test"; number := 2 |}.
Proof.
  apply (X13_stream_of_runnable_step sample_streamer (sample_command [] ["build"])
           (select_steps (sample_command [] ["build"]) ""
              (map sample_step ["clone"; "build"; "test"]))
           1%nat (sample_step "test")).
  - reflexivity.
  - reflexivity.
  - intros [|k'] s' Hlt Hs'; [|lia]. injection Hs' as <-. discriminate.
Defined.

Lemma elem_of_runnable (s : engine.Step) (steps : list engine.Step) :
  s ∈ runnable steps → s ∈ steps ∧ engine.RunPolicy s ≠ runtime.RunNever.
Proof.
  unfold runnable. rewrite !list_elem_of_In, filter_In. intros [Hin Hrun].
  split; [done|]. intros Hnever. rewrite Hnever in Hrun. discriminate.
Qed.

Lemma Stream_no_runnable_step (j : jSONFileStreamer) (commy : execCommand)
  (steps : list engine.Step) (n : string) :
  drone.Steps (Stage commy) = [] →
  (∀ s, s ∈ steps → engine.Name s = n → engine.RunPolicy s = runtime.RunNever) →
  Stream j (stage_with_roster commy steps) n = None.
Proof.
  intros Hempty Hall. unfold Stream.
  rewrite (proj2 (Stream_range_none _ n)); [done|].
  intros e He Hn. rewrite stage_with_roster_fresh in He by done.
  apply elem_of_lookup_imap in He as (i & s & -> & Hi).
  rewrite roster_entry_Name in Hn.
  apply list_elem_of_lookup_2, elem_of_runnable in Hi as [Hin Hrun].
  by apply Hrun, Hall.
Qed.

(** X14.  A name whose steps are all marked [RunNever] is on no entry of a
    roster that starts empty, and a stream requested for it runs into the
    nil step.  That is so for every name of the exclude list other than
    [clone], after selection. *)
Theorem X14_stream_of_skipped_step_fails
  (j : jSONFileStreamer) (commy : execCommand) (resumeAt : string)
  (steps : list engine.Step) (n : string) :
  drone.Steps (Stage commy) = [] →
  ((∀ s, s ∈ steps → engine.Name s = n → engine.RunPolicy s = runtime.RunNever) →
   Stream j (stage_with_roster commy steps) n = None)
  ∧ (n ≠ "clone" → n ∈ Exclude commy →
     Stream j (stage_with_roster commy (select_steps commy resumeAt steps)) n = None).
Proof.
  intros Hempty. split; [by apply Stream_no_runnable_step|].
  intros Hclone Hexc. apply Stream_no_runnable_step; [done|].
  rewrite select_steps_two_phases, include_exclude_pointwise.
  intros s' Hs' Hn.
  change (map ?f steps) with (f <$> steps) in Hs'.
  apply list_elem_of_fmap in Hs' as (s & -> & _).
  destruct (decide (engine.Name s = "clone")) as [Hc|Hc]; [congruence|].
  destruct (decide _) as [Hout|Hin]; [reflexivity|].
  exfalso. apply Hin. right. by rewrite Hn.
Qed.

Lemma X14_stream_of_skipped_step_fails_witness :
  Stream sample_streamer
    (stage_with_roster (sample_command [] ["build"])
       (select_steps (sample_command [] ["build"]) ""
          (map sample_step ["clone"; "build"; "test"])))
    "build"
  = None.
Proof.
  destruct (X14_stream_of_skipped_step_fails sample_streamer
              (sample_command [] ["build"]) ""
              (map sample_step ["clone"; "build"; "test"]) "build" eq_refl)
    as [_ Hexcluded].
  apply Hexcluded; [discriminate | left].
Defined.

(** ** What [generateStatement] and [exec] leave behind *)

(** X15.  [generateStatement] touches no file but the one at its
    provenance path and prints no dump; it logs at most one line; and when
    it logs none, the file at the provenance path holds the statement and
    nothing else. *)
Theorem X15_generateStatement_touches_one_file
  (E : External) (commy : execCommand) (p : resource.Pipeline)
  (spec : engine.Spec) (w : World) :
  (∀ path : string,
      path ≠ provenance_path (Source commy) →
      files (generateStatement commy p spec w) !! path = files w !! path)
  ∧ dumped (generateStatement commy p spec w) = dumped w
  ∧ (errlog (generateStatement commy p spec w) = errlog w
     ∨ ∃ line, errlog (generateStatement commy p spec w) = errlog w ++ [line])
  ∧ (errlog (generateStatement commy p spec w) = errlog w →
     files (generateStatement commy p spec w) !! provenance_path (Source commy)
       = Some [statement commy p spec]).
Proof.
  unfold generateStatement.
  destruct (create_fault _ _) as [e1|]; [|destruct (encode_fault _ _ _) as [e2|]];
    cbn [files errlog dumped log_Errorf set_file remember].
  - split; [done|]. split; [done|]. split; [right; eauto|].
    intros H. apply (f_equal length) in H. rewrite length_app in H. cbn in H. lia.
  - split; [intros path Hpath; by rewrite lookup_insert_ne|].
    split; [done|]. split; [right; eauto|].
    intros H. apply (f_equal length) in H. rewrite length_app in H. cbn in H. lia.
  - split; [intros path Hpath; by rewrite !lookup_insert_ne|].
    split; [done|]. split; [by left|].
    intros _. apply lookup_insert_eq.
Qed.

Lemma X15_generateStatement_touches_one_file_witness :
  files (@generateStatement quiet (sample_command [] []) sample_pipeline
           {| engine.Steps := [] |}
           {| files := {[ "README.md" := [] ]}; errlog := []; dumped := [];
              assembled := [] |}) !! "README.md"
  = Some [].
Proof.
  destruct (X15_generateStatement_touches_one_file quiet (sample_command [] [])
              sample_pipeline {| engine.Steps := [] |}
              {| files := {[ "README.md" := [] ]}; errlog := []; dumped := [];
                 assembled := [] |}) as [Hframe _].
  rewrite Hframe; [reflexivity | discriminate].
Defined.

(** X16.  The process ends with status 0 or 1, and [Action] never returns
    an error to its caller.  The status is 0 exactly when the engine could
    be created, the run returned no error and the stage did not end in
    error, failing or killed.  When the engine cannot be created, [exec]
    returns that error and leaves everything as it was. *)
Theorem X16_exit_status_of_exec
  (E : External) (commy : execCommand) (resumeAt : string)
  (p : resource.Pipeline) (spec : engine.Spec) (w : World) :
  let sel := {| engine.Steps := select_steps commy resumeAt (engine.Steps spec) |} in
  let run := Exec sel (stage_with_roster commy (engine.Steps sel)) in
  (exit_status (Action commy resumeAt p spec w).1 = 0
   ∨ exit_status (Action commy resumeAt p spec w).1 = 1)
  ∧ (∀ e, (Action commy resumeAt p spec w).1 ≠ Returned (Some e))
  ∧ (exit_status (Action commy resumeAt p spec w).1 = 0
     ↔ NewEnv_fault = None ∧ run.1 = None
       ∧ failed_status (drone.StageStatus run.2) = false)
  ∧ (∀ e, NewEnv_fault = Some e →
       exec commy resumeAt p spec w = (Returned (Some e), w)).
Proof.
  intros sel run. unfold Action.
  destruct NewEnv_fault as [e0|] eqn:Henv.
  - assert (Hexec : exec commy resumeAt p spec w = (Returned (Some e0), w)).
    { unfold exec. by rewrite Henv. }
    rewrite Hexec. cbn [fst exit_status].
    split; [by right|]. split; [done|]. split; [|by intros e [= ->]].
    split; [done | by intros [? _]].
  - rewrite (exec_cases commy resumeAt p spec w Henv). cbn zeta.
    fold sel. fold run.
    destruct run.1 as [e|]; [|destruct (failed_status _)]; cbn [fst exit_status].
    + split; [by right|]. split; [done|]. split; [|done].
      split; [done | by intros (_ & ? & _)].
    + split; [by right|]. split; [done|]. split; [|done].
      split; [done | by intros (_ & _ & ?)].
    + split; [by left|]. split; [done|]. split; done.
Qed.

Lemma X16_exit_status_of_exec_witness :
  exit_status
    (@Action failing_run (sample_command [] []) "" sample_pipeline
       {| engine.Steps := map sample_step ["clone"] |} empty_world).1
  ≠ 0.
Proof.
  destruct (X16_exit_status_of_exec failing_run (sample_command [] []) ""
              sample_pipeline {| engine.Steps := map sample_step ["clone"] |}
              empty_world) as (_ & _ & Hiff & _).
  intros H0. apply Hiff in H0 as (_ & _ & Hstatus). discriminate Hstatus.
Defined.

(** ** The provenance path of a pipeline file in the working directory *)

Lemma HasPrefix_char c s d :
  GoStrings.HasPrefix (String c s) (String d EmptyString) = Ascii.eqb c d.
Proof.
  unfold GoStrings.HasPrefix. simpl.
  destruct s; simpl; destruct (Ascii.eqb c d); reflexivity.
Qed.

Lemma genSplit_char_cons d c s :
  GoStrings.genSplit (String d EmptyString) 0 (String c s) =
  if Ascii.eqb c d then EmptyString :: GoStrings.genSplit (String d EmptyString) 0 s
  else GoStrings.cons_head c (GoStrings.genSplit (String d EmptyString) 0 s).
Proof.
  change (GoStrings.genSplit (String d EmptyString) 0 (String c s)) with
    (if GoStrings.HasPrefix (String c s) (String d EmptyString)
     then EmptyString :: GoStrings.genSplit (String d EmptyString) 0 s
     else GoStrings.cons_head c (GoStrings.genSplit (String d EmptyString) 0 s)).
  now rewrite HasPrefix_char.
Qed.

Lemma genSplit_char_nonempty d s : GoStrings.genSplit (String d EmptyString) 0 s ≠ [].
Proof.
  destruct s as [|c s]; [done|]. rewrite genSplit_char_cons.
  destruct (Ascii.eqb c d); [done|].
  by destruct (GoStrings.genSplit (String d EmptyString) 0 s).
Qed.

(** A string without the separator is one piece. *)
Lemma genSplit_char_none d s :
  GoStrings.CountByte s d = 0%nat →
  GoStrings.genSplit (String d EmptyString) 0 s = [s].
Proof.
  induction s as [|c s IH]; [done|]. cbn [GoStrings.CountByte].
  rewrite genSplit_char_cons. destruct (Ascii.eqb c d); [discriminate|].
  intros H. by rewrite IH.
Qed.

Lemma genSplit_char_app d (x y : string) :
  GoStrings.genSplit (String d EmptyString) 0 (x ++ String d y)%string =
  GoStrings.genSplit (String d EmptyString) 0 x
  ++ GoStrings.genSplit (String d EmptyString) 0 y.
Proof.
  induction x as [|c x IH].
  - change ("" ++ String d y)%string with (String d y).
    rewrite genSplit_char_cons, Ascii.eqb_refl. reflexivity.
  - change (String c x ++ String d y)%string with (String c (x ++ String d y)%string).
    rewrite !genSplit_char_cons, IH.
    destruct (Ascii.eqb c d); [reflexivity|].
    pose proof (genSplit_char_nonempty d x) as Hne.
    by destruct (GoStrings.genSplit (String d EmptyString) 0 x).
Qed.

Lemma LastIndexByte_cons a s c :
  GoPath.LastIndexByte (String a s) c =
  if 0 <=? GoPath.LastIndexByte s c then GoPath.LastIndexByte s c + 1
  else if Ascii.eqb a c then 0 else -1.
Proof. reflexivity. Qed.

Lemma LastIndexByte_none s c :
  GoStrings.CountByte s c = 0%nat → GoPath.LastIndexByte s c = -1.
Proof.
  induction s as [|a s IH]; [done|]. cbn [GoStrings.CountByte].
  rewrite LastIndexByte_cons.
  destruct (Ascii.eqb a c); [discriminate|]. intros H. by rewrite IH.
Qed.

Lemma LastIndexByte_nonneg_bound s c :
  -1 ≤ GoPath.LastIndexByte s c < Z.of_nat (String.length s).
Proof.
  induction s as [|a s IH]; [cbn; lia|].
  rewrite LastIndexByte_cons. cbn [String.length].
  destruct (0 <=? GoPath.LastIndexByte s c) eqn:H; [lia|].
  destruct (Ascii.eqb a c); lia.
Qed.

(** The last separator of [x ++ c ++ y], [y] holding none, is the one
    between them. *)
Lemma LastIndexByte_app s c y :
  GoStrings.CountByte y c = 0%nat →
  GoPath.LastIndexByte (s ++ String c y) c = Z.of_nat (String.length s).
Proof.
  intros Hy. induction s as [|a s IH].
  - change ("" ++ String c y)%string with (String c y).
    rewrite LastIndexByte_cons, (LastIndexByte_none y c Hy). cbn.
    by rewrite Ascii.eqb_refl.
  - change (String a s ++ String c y)%string with (String a (s ++ String c y)%string).
    rewrite LastIndexByte_cons, IH. cbn [String.length].
    destruct (0 <=? Z.of_nat (String.length s)) eqn:H; lia.
Qed.

Lemma substring_0_all s : substring 0 (String.length s) s = s.
Proof. induction s as [|c s IH]; [done|]. simpl. f_equal. exact IH. Qed.

Lemma substring_0_app s t : substring 0 (String.length s) (s ++ t) = s.
Proof. induction s as [|c s IH]; [by destruct t|]. simpl. f_equal. exact IH. Qed.

Lemma strip_trailing_slashes_none s :
  GoStrings.CountByte s "/" = 0%nat → GoPath.strip_trailing_slashes s = s.
Proof.
  induction s as [|c s IH]; [done|]. cbn [GoStrings.CountByte GoPath.strip_trailing_slashes].
  destruct (Ascii.eqb c "/"); [discriminate|]. intros H.
  rewrite IH by done. by rewrite andb_false_r.
Qed.

Lemma append_slash_assoc (s t : string) :
  ((s ++ "/") ++ t)%string = (s ++ String "/" t)%string.
Proof.
  induction s as [|c s IH]; [done|].
  change ((String c s ++ "/") ++ t)%string with (String c ((s ++ "/") ++ t)%string).
  change (String c s ++ String "/" t)%string with (String c (s ++ String "/" t)%string).
  by rewrite IH.
Qed.

Lemma substring_through_char (s : string) (c : ascii) (t : string) :
  substring 0 (S (String.length s)) (s ++ String c t) = (s ++ String c "")%string.
Proof.
  induction s as [|a s IH].
  - cbn. by destruct t.
  - change (String a s ++ String c t)%string with (String a (s ++ String c t)%string).
    change (String a s ++ String c "")%string with (String a (s ++ String c "")%string).
    cbn [String.length].
    change (substring 0 (S (S (String.length s))) (String a (s ++ String c t)))
      with (String a (substring 0 (S (String.length s)) (s ++ String c t))).
    by rewrite IH.
Qed.

Section SimpleName.
Variable f : string.
Hypothesis f_no_slash : GoStrings.CountByte f "/" = 0%nat.
Hypothesis f_not_empty : f ≠ "".
Hypothesis f_not_dot : f ≠ ".".
Hypothesis f_not_dotdot : f ≠ "..".

Lemma simple_Split : GoPath.Split f = ("", f).
Proof.
  unfold GoPath.Split. rewrite (LastIndexByte_none f "/" f_no_slash).
  cbn [Z.add Z.to_nat]. change (Z.to_nat (-1 + 1)) with 0%nat.
  rewrite Nat.sub_0_r, substring_0_all. by destruct f.
Qed.

Lemma simple_Dir : GoPath.Dir f = ".".
Proof. unfold GoPath.Dir. by rewrite simple_Split. Qed.

Lemma simple_Base : GoPath.Base f = f.
Proof.
  unfold GoPath.Base.
  rewrite (proj2 (String.eqb_neq _ _) f_not_empty).
  rewrite strip_trailing_slashes_none by done.
  rewrite (LastIndexByte_none f "/" f_no_slash). cbn [Z.leb Z.compare].
  by rewrite (proj2 (String.eqb_neq _ _) f_not_empty).
Qed.

Lemma simple_clean_step (stack : list string) :
  GoPath.clean_step false stack f = f :: stack.
Proof.
  unfold GoPath.clean_step.
  rewrite (proj2 (String.eqb_neq _ _) f_not_empty).
  rewrite (proj2 (String.eqb_neq _ _) f_not_dot).
  by rewrite (proj2 (String.eqb_neq _ _) f_not_dotdot).
Qed.

Lemma simple_Clean_joined :
  GoPath.Clean ("." ++ String "/" (f ++ String "/" "-provenance.json"))%string
  = (f ++ "/-provenance.json")%string.
Proof.
  set (p := ("." ++ String "/" (f ++ String "/" "-provenance.json"))%string).
  assert (Hp1 : String.eqb p "" = false) by reflexivity.
  assert (Hp2 : GoStrings.HasPrefix p "/" = false)
    by exact (HasPrefix_char "." _ "/").
  assert (Hp3 : GoStrings.Split p "/" = ["."; f; "-provenance.json"]).
  { change (GoStrings.Split p "/") with (GoStrings.genSplit "/" 0 p). unfold p.
    rewrite !genSplit_char_app.
    rewrite (genSplit_char_none "/" f f_no_slash).
    rewrite (genSplit_char_none "/" "." eq_refl).
    by rewrite (genSplit_char_none "/" "-provenance.json" eq_refl). }
  unfold GoPath.Clean. rewrite Hp1, Hp2, Hp3. cbn [fold_left].
  change (GoPath.clean_step false [] ".") with (@nil string).
  rewrite simple_clean_step.
  change (GoPath.clean_step false [f] "-provenance.json")
    with ["-provenance.json"; f].
  cbn [rev app String.concat].
  destruct f as [|c s] eqn:Hf; [done|]. reflexivity.
Qed.

Lemma simple_provenance_path :
  provenance_path f = (f ++ "/-provenance.json")%string.
Proof.
  unfold provenance_path. rewrite simple_Dir, simple_Base.
  unfold GoPath.Join.
  assert (Hsize : (fold_left (λ n e, (n + String.length e)%nat)
                     ["."; f; "-provenance.json"] 0%nat =? 0)%nat = false)
    by reflexivity.
  assert (Hbuf : fold_left GoPath.join_step ["."; f; "-provenance.json"] ""
                 = ("." ++ String "/" (f ++ String "/" "-provenance.json"))%string).
  { transitivity (String "." (String "/" ((f ++ "/") ++ "-provenance.json")%string));
      [reflexivity|].
    by rewrite append_slash_assoc. }
  rewrite Hsize, Hbuf. apply simple_Clean_joined.
Qed.

Lemma simple_provenance_Dir :
  GoPath.Dir (f ++ "/-provenance.json")%string = f.
Proof.
  unfold GoPath.Dir, GoPath.Split.
  change (f ++ "/-provenance.json")%string with (f ++ String "/" "-provenance.json")%string.
  rewrite (LastIndexByte_app f "/" "-provenance.json" eq_refl).
  replace (Z.to_nat (Z.of_nat (String.length f) + 1)) with (S (String.length f)) by lia.
  rewrite substring_through_char. cbn [fst].
  unfold GoPath.Clean.
  assert (Hne : (f ++ "/")%string ≠ "") by (by destruct f).
  rewrite (proj2 (String.eqb_neq _ _) Hne).
  assert (Hroot : GoStrings.HasPrefix (f ++ "/") "/" = false).
  { destruct f as [|c s] eqn:Hf; [done|].
    change (String c s ++ "/")%string with (String c (s ++ "/")%string).
    rewrite HasPrefix_char. cbn [GoStrings.CountByte] in f_no_slash.
    destruct (Ascii.eqb c "/"); [discriminate | done]. }
  rewrite Hroot. cbn [GoStrings.Split].
  change (f ++ "/")%string with (f ++ String "/" "")%string.
  rewrite genSplit_char_app, (genSplit_char_none "/" f f_no_slash).
  cbn [GoStrings.genSplit app fold_left].
  rewrite simple_clean_step.
  change (GoPath.clean_step false [f] "") with [f].
  cbn [rev app String.concat].
  by rewrite (proj2 (String.eqb_neq _ _) f_not_empty).
Qed.

End SimpleName.

(** X17.  For a pipeline file given by a plain name [f] (no slash, and not
    empty, [.] or [..]), that is a file of the working directory [.], the
    path [generateStatement] hands to [os.Create] is [f/-provenance.json]:
    its directory is [f], the pipeline file itself, and not the directory
    [.] of the pipeline file. *)
Theorem X17_provenance_path_of_plain_name (f : string) :
  GoStrings.CountByte f "/" = 0%nat → f ≠ "" → f ≠ "." → f ≠ ".." →
  provenance_path f = (f ++ "/-provenance.json")%string
  ∧ GoPath.Dir (provenance_path f) = f
  ∧ GoPath.Dir f = "."
  ∧ GoPath.Dir (provenance_path f) ≠ GoPath.Dir f.
Proof.
  intros H1 H2 H3 H4.
  rewrite simple_provenance_path by assumption.
  rewrite simple_provenance_Dir by assumption.
  rewrite simple_Dir by assumption.
  split; [reflexivity|]. split; [reflexivity|]. split; [reflexivity|]. exact H3.
Qed.

Lemma X17_provenance_path_of_plain_name_witness :
  provenance_path "pipeline.yaml" = "pipeline.yaml/-provenance.json"
  ∧ GoPath.Dir (provenance_path "pipeline.yaml") = "pipeline.yaml".
Proof.
  destruct (X17_provenance_path_of_plain_name "pipeline.yaml") as (Hp & Hd & _);
    [reflexivity | discriminate | discriminate | discriminate |].
  split; [exact Hp | exact Hd].
Defined.

(** ** Label maps *)

Lemma copy_into_union (src dst : gmap string string) :
  copy_into src dst = src ∪ dst.
Proof.
  unfold copy_into.
  apply (map_fold_weak_ind (λ (r : gmap string string) (m : gmap string string),
                              r = m ∪ dst)).
  - by rewrite (left_id_L ∅ (∪)).
  - intros k v m r _ ->. by rewrite insert_union_l.
Qed.

Lemma Combine_two (a b : gmap string string) : Combine [a; b] = b ∪ a.
Proof.
  unfold Combine. cbn [fold_left]. rewrite !copy_into_union.
  by rewrite (right_id_L ∅ (∪)).
Qed.

Lemma service_range_spec (n : string) (services : list string)
  (e : gmap string string) :
  service_range n services e =
  if decide (n ∈ services) then <[ labelService := "true" ]> e else e.
Proof.
  induction services as [|svc rest IH]; cbn [service_range].
  - rewrite decide_False; [done | apply not_elem_of_nil].
  - destruct (String.eqb_spec n svc) as [->|Hne].
    + rewrite decide_True; [done | left].
    + rewrite IH. apply decide_ext. rewrite elem_of_cons.
      split; [by right | by intros [?|?]].
Qed.

Section LabelFacts.
Variable TrimSpace : string → string.

Lemma label_step_Labels commy p services i step :
  engine.Labels (label_step TrimSpace commy p services i step) =
  extra_labels TrimSpace commy p services i step ∪ engine.Labels step.
Proof. unfold label_step. cbn [engine.Labels]. apply Combine_two. Qed.

(** The three conditions under which the body of the loop adds a label. *)
Ltac label_cases commy step services :=
  unfold extra_labels; rewrite service_range_spec;
  destruct (decide (engine.Name step ∈ services));
  destruct (Include commy); destruct (Exclude commy);
  cbn [length Nat.ltb Nat.leb].

Lemma extra_labels_fixed commy p services i step :
  extra_labels TrimSpace commy p services i step !! labelStageName
    = Some (TrimSpace (resource.Name p))
  ∧ extra_labels TrimSpace commy p services i step !! labelStepName
    = Some (TrimSpace (engine.Name step))
  ∧ extra_labels TrimSpace commy p services i step !! labelStepNumber
    = Some (pretty (Z.of_nat i)).
Proof. label_cases commy step services; repeat split; reflexivity. Qed.

Lemma extra_labels_includes commy p services i step :
  extra_labels TrimSpace commy p services i step !! labelIncludes
  = if decide (Include commy = []) then None
    else Some (String.concat "," (Include commy)).
Proof. label_cases commy step services; reflexivity. Qed.

Lemma extra_labels_excludes commy p services i step :
  extra_labels TrimSpace commy p services i step !! labelExcludes
  = if decide (Exclude commy = []) then None
    else Some (String.concat "," (Exclude commy)).
Proof. label_cases commy step services; reflexivity. Qed.

Lemma extra_labels_service commy p services i step :
  extra_labels TrimSpace commy p services i step !! labelService
  = if decide (engine.Name step ∈ services) then Some "true" else None.
Proof.
  unfold extra_labels. rewrite service_range_spec.
  destruct (decide (engine.Name step ∈ services));
    destruct (Include commy); destruct (Exclude commy);
    cbn [length Nat.ltb Nat.leb]; reflexivity.
Qed.

Lemma extra_labels_other commy p services i step (k : string) :
  k ∉ [labelStageName; labelStepName; labelStepNumber;
       labelIncludes; labelExcludes; labelService] →
  extra_labels TrimSpace commy p services i step !! k = None.
Proof.
  intros Hk.
  assert (k ≠ labelStageName ∧ k ≠ labelStepName ∧ k ≠ labelStepNumber
          ∧ k ≠ labelIncludes ∧ k ≠ labelExcludes ∧ k ≠ labelService)
    as (H1 & H2 & H3 & H4 & H5 & H6).
  { repeat split; intros ->; apply Hk; set_solver. }
  label_cases commy step services;
    rewrite ?lookup_insert_ne by done; apply lookup_empty.
Qed.

End LabelFacts.

(** X18.  After the labelling loop of [exec], the labels of the step at
    index [i] hold the trimmed stage name, the trimmed step name and the
    decimal index [i] under their keys; the include and the exclude list,
    joined by commas, when they are not empty; and [true] under the service
    key when a service has the step's name.  These six keys override what
    the compiler had put there; every other label of the step is kept. *)
Theorem X18_step_labels_after_labelling
  (TrimSpace : string → string) (commy : execCommand) (p : resource.Pipeline)
  (services : list string) (i : nat) (step : engine.Step) :
  engine.Labels (label_step TrimSpace commy p services i step) !! labelStageName
    = Some (TrimSpace (resource.Name p))
  ∧ engine.Labels (label_step TrimSpace commy p services i step) !! labelStepName
    = Some (TrimSpace (engine.Name step))
  ∧ engine.Labels (label_step TrimSpace commy p services i step) !! labelStepNumber
    = Some (pretty (Z.of_nat i))
  ∧ engine.Labels (label_step TrimSpace commy p services i step) !! labelIncludes
    = (if decide (Include commy = []) then engine.Labels step !! labelIncludes
       else Some (String.concat "," (Include commy)))
  ∧ engine.Labels (label_step TrimSpace commy p services i step) !! labelExcludes
    = (if decide (Exclude commy = []) then engine.Labels step !! labelExcludes
       else Some (String.concat "," (Exclude commy)))
  ∧ engine.Labels (label_step TrimSpace commy p services i step) !! labelService
    = (if decide (engine.Name step ∈ services) then Some "true"
       else engine.Labels step !! labelService)
  ∧ (∀ k : string,
        k ∉ [labelStageName; labelStepName; labelStepNumber;
             labelIncludes; labelExcludes; labelService] →
        engine.Labels (label_step TrimSpace commy p services i step) !! k
          = engine.Labels step !! k).
Proof.
  rewrite label_step_Labels.
  destruct (extra_labels_fixed TrimSpace commy p services i step) as (H1 & H2 & H3).
  split; [by apply lookup_union_Some_l|].
  split; [by apply lookup_union_Some_l|].
  split; [by apply lookup_union_Some_l|].
  split.
  { pose proof (extra_labels_includes TrimSpace commy p services i step) as H.
    destruct (decide (Include commy = []));
      [by apply lookup_union_r | by apply lookup_union_Some_l]. }
  split.
  { pose proof (extra_labels_excludes TrimSpace commy p services i step) as H.
    destruct (decide (Exclude commy = []));
      [by apply lookup_union_r | by apply lookup_union_Some_l]. }
  split.
  { pose proof (extra_labels_service TrimSpace commy p services i step) as H.
    destruct (decide (engine.Name step ∈ services));
      [by apply lookup_union_Some_l | by apply lookup_union_r]. }
  intros k Hk. apply lookup_union_r. by apply extra_labels_other.
Qed.

Lemma X18_step_labels_after_labelling_witness :
  engine.Labels
    (label_step (λ s, s) (sample_command ["build"] []) sample_pipeline ["db"] 3
       {| engine.Name := "db"; engine.Image := "postgres";
          engine.RunPolicy := runtime.RunOnSuccess; engine.ErrPolicy := runtime.ErrFail;
          engine.Labels := {[ "team" := "ci"; "io.drone.step.number" := "99" ]} |})
    !! "team"
  = Some "ci".
Proof.
  destruct (X18_step_labels_after_labelling (λ s, s) (sample_command ["build"] [])
              sample_pipeline ["db"] 3
              {| engine.Name := "db"; engine.Image := "postgres";
                 engine.RunPolicy := runtime.RunOnSuccess;
                 engine.ErrPolicy := runtime.ErrFail;
                 engine.Labels := {[ "team" := "ci"; "io.drone.step.number" := "99" ]} |})
    as (_ & _ & _ & _ & _ & _ & Hother).
  rewrite Hother; [reflexivity|].
  intros Hin. cbn in Hin.
  repeat (apply elem_of_cons in Hin as [Heq|Hin]; [discriminate Heq|]).
  by apply elem_of_nil in Hin.
Defined.

Lemma label_step_set_RunPolicy TrimSpace commy p services i q s :
  label_step TrimSpace commy p services i (engine.set_RunPolicy q s) =
  engine.set_RunPolicy q (label_step TrimSpace commy p services i s).
Proof. reflexivity. Qed.

(** X19.  The labelling loop changes labels only: names, images, run and
    error policies and the order of the steps are as before.  Labelling and
    selection do not disturb each other: selecting the labelled steps gives
    the same list as labelling the selected steps. *)
Theorem X19_labelling_commutes_with_selection
  (TrimSpace : string → string) (commy : execCommand) (resumeAt : string)
  (p : resource.Pipeline) (services : list string) (steps : list engine.Step) :
  map engine.Name (label_steps TrimSpace commy p services steps) = map engine.Name steps
  ∧ map engine.Image (label_steps TrimSpace commy p services steps)
    = map engine.Image steps
  ∧ map engine.RunPolicy (label_steps TrimSpace commy p services steps)
    = map engine.RunPolicy steps
  ∧ map engine.ErrPolicy (label_steps TrimSpace commy p services steps)
    = map engine.ErrPolicy steps
  ∧ select_steps commy resumeAt (label_steps TrimSpace commy p services steps)
    = label_steps TrimSpace commy p services (select_steps commy resumeAt steps).
Proof.
  unfold label_steps.
  assert (Hfield : ∀ {A} (proj : engine.Step → A),
             (∀ i s, proj (label_step TrimSpace commy p services i s) = proj s) →
             map proj (imap (label_step TrimSpace commy p services) steps)
             = map proj steps).
  { intros A proj Hproj. change (map proj ?l) with (proj <$> l).
    rewrite fmap_imap, <- imap_const. apply imap_ext. intros i s _. apply Hproj. }
  split; [by apply Hfield|]. split; [by apply Hfield|].
  split; [by apply Hfield|]. split; [by apply Hfield|].
  rewrite !select_steps_two_phases, !include_exclude_pointwise.
  change (map ?f ?l) with (f <$> l).
  rewrite fmap_imap, imap_fmap. apply imap_ext. intros i s _. cbn [compose].
  change (engine.Name (label_step TrimSpace commy p services i s))
    with (engine.Name s).
  destruct (decide (engine.Name s = "clone")); [done|].
  destruct (decide _); [|done].
  symmetry. apply label_step_set_RunPolicy.
Qed.

(** ** [TriggerUIRefresh] *)

(** Membership in a list of calls that is written out. *)
Ltac call_in H :=
  cbn [app] in H;
  repeat (apply elem_of_cons in H as [H|H]; [try discriminate H|]);
  try (by apply elem_of_nil in H).

Ltac call_there := cbn [app]; repeat first [ by left | right ].

Section DockerFacts.
Context {D : Docker}.

(** The configuration of the refresh container for given labels. *)
Lemma create_and_start_calls (labels : gmap string string) (calls : list DockerCall) :
  ∃ tail : list DockerCall,
    (create_and_start labels calls).2 =
      calls
      ++ CallContainerCreate
           {| cc_Image := busyboxImage; cc_AttachStdout := true;
              cc_AttachStderr := true; cc_Labels := labels ∪ default_labels;
              cc_AutoRemove := true |}
      :: tail
    ∧ (tail = []
       ∨ ∃ id, tail = [CallContainerStart id]
               ∧ create_result
                   {| cc_Image := busyboxImage; cc_AttachStdout := true;
                      cc_AttachStderr := true; cc_Labels := labels ∪ default_labels;
                      cc_AutoRemove := true |} = inr id)
    ∧ ((create_and_start labels calls).1 = None → tail ≠ []).
Proof.
  unfold create_and_start. rewrite copy_into_union.
  destruct (create_result _) as [err|id] eqn:Hc.
  - exists []. cbn [fst snd]. split; [done|]. split; [by left | done].
  - exists [CallContainerStart id].
    destruct (start_result id); cbn [fst snd]; rewrite <- app_assoc;
      (split; [done|]); (split; [right; by exists id | done]).
Qed.

End DockerFacts.

(** X20.  Whatever container [TriggerUIRefresh] asks the daemon to create
    is a busybox container that is removed when it exits, and its labels
    are the caller's labels over the three default labels: a label of the
    caller is there with the caller's value, also when its key is one of
    the defaults, and a default label whose key the caller does not use is
    there with its default value. *)
Theorem X20_refresh_container_labels
  (D : Docker) (GOARCH : string) (labels : gmap string string)
  (config : ContainerConfig) :
  CallContainerCreate config ∈ (TriggerUIRefresh GOARCH labels).2 →
  cc_Image config = busyboxImage
  ∧ cc_AutoRemove config = true
  ∧ cc_Labels config = labels ∪ default_labels
  ∧ (∀ k v, labels !! k = Some v → cc_Labels config !! k = Some v)
  ∧ (∀ k, labels !! k = None → cc_Labels config !! k = default_labels !! k).
Proof.
  intros Hin.
  assert (Hcfg : config =
            {| cc_Image := busyboxImage; cc_AttachStdout := true;
               cc_AttachStderr := true; cc_Labels := labels ∪ default_labels;
               cc_AutoRemove := true |}).
  { unfold TriggerUIRefresh in Hin.
    destruct (inspect_result busyboxImage);
      [destruct (pull_result _ _); [|destruct copy_result]|]; cbn [snd] in Hin.
    - call_in Hin.
    - call_in Hin.
    - destruct (create_and_start_calls labels
                  (([CallImageInspect busyboxImage]
                    ++ [CallImagePull busyboxImage ("linux/" ++ GOARCH)%string])
                   ++ [CallCopy])) as (tail & Hcalls & [->|(id & -> & _)] & _);
        rewrite Hcalls in Hin; call_in Hin; by injection Hin.
    - destruct (create_and_start_calls labels [CallImageInspect busyboxImage])
        as (tail & Hcalls & [->|(id & -> & _)] & _);
        rewrite Hcalls in Hin; call_in Hin; by injection Hin. }
  subst config. cbn [cc_Image cc_AutoRemove cc_Labels].
  split; [done|]. split; [done|]. split; [done|]. split.
  - intros k v Hk. by apply lookup_union_Some_l.
  - intros k Hk. by apply lookup_union_r.
Qed.

Lemma X20_refresh_container_labels_witness :
  ∃ config,
    CallContainerCreate config
      ∈ (@TriggerUIRefresh daemon_without_image "arm64"
           {[ "io.drone.desktop.ui.refresh" := "true";
              "com.docker.desktop.extension.name" := "Mine" ]}).2
    ∧ cc_Labels config !! "com.docker.desktop.extension.name" = Some "Mine"
    ∧ cc_Labels config !! "com.docker.desktop.extension" = Some "true".
Proof.
  eexists. split; [do 3 right; left|].
  destruct (X20_refresh_container_labels daemon_without_image "arm64"
              {[ "io.drone.desktop.ui.refresh" := "true";
                 "com.docker.desktop.extension.name" := "Mine" ]}
              _ ltac:(do 3 right; left)) as (_ & _ & _ & Hmine & Hdefault).
  split; [by apply Hmine | by rewrite Hdefault].
Defined.

(** X21.  [TriggerUIRefresh] asks for the image first and pulls it only
    when that fails; when the pull or the copying of its output fails it
    returns that error and creates no container; it starts only the
    container it has created; and it returns no error only after it has
    started one. *)
Theorem X21_refresh_creates_after_image_is_there
  (D : Docker) (GOARCH : string) (labels : gmap string string) :
  (∃ rest, (TriggerUIRefresh GOARCH labels).2 = CallImageInspect busyboxImage :: rest)
  ∧ (inspect_result busyboxImage = None →
     ∀ image platform,
       CallImagePull image platform ∉ (TriggerUIRefresh GOARCH labels).2)
  ∧ (∀ e, inspect_result busyboxImage = Some e →
     (∀ err, pull_result busyboxImage ("linux/" ++ GOARCH)%string = Some err →
        TriggerUIRefresh GOARCH labels
        = (Some err, [CallImageInspect busyboxImage;
                      CallImagePull busyboxImage ("linux/" ++ GOARCH)%string]))
     ∧ (∀ err, pull_result busyboxImage ("linux/" ++ GOARCH)%string = None →
        copy_result = Some err →
        TriggerUIRefresh GOARCH labels
        = (Some err, [CallImageInspect busyboxImage;
                      CallImagePull busyboxImage ("linux/" ++ GOARCH)%string;
                      CallCopy])))
  ∧ (∀ id, CallContainerStart id ∈ (TriggerUIRefresh GOARCH labels).2 →
     ∃ config, CallContainerCreate config ∈ (TriggerUIRefresh GOARCH labels).2
               ∧ create_result config = inr id)
  ∧ ((TriggerUIRefresh GOARCH labels).1 = None →
     ∃ id, CallContainerStart id ∈ (TriggerUIRefresh GOARCH labels).2
           ∧ start_result id = None).
Proof.
  split.
  { unfold TriggerUIRefresh.
    destruct (inspect_result busyboxImage);
      [destruct (pull_result _ _); [|destruct copy_result]|]; cbn [snd]; eauto.
    - destruct (create_and_start_calls labels
                  (([CallImageInspect busyboxImage]
                    ++ [CallImagePull busyboxImage ("linux/" ++ GOARCH)%string])
                   ++ [CallCopy])) as (tail & -> & _). cbn. eauto.
    - destruct (create_and_start_calls labels [CallImageInspect busyboxImage])
        as (tail & -> & _). cbn. eauto. }
  split.
  { intros Hpresent image platform. unfold TriggerUIRefresh. rewrite Hpresent.
    intros Hpull.
    destruct (create_and_start_calls labels [CallImageInspect busyboxImage])
      as (tail & Hcalls & [->|(id & -> & _)] & _);
      rewrite Hcalls in Hpull; call_in Hpull. }
  split.
  { intros e He. unfold TriggerUIRefresh. rewrite He. split.
    - by intros err ->.
    - by intros err -> ->. }
  split.
  { intros id Hid. unfold TriggerUIRefresh in *.
    destruct (inspect_result busyboxImage);
      [destruct (pull_result _ _); [|destruct copy_result]|]; cbn [snd] in *.
    - call_in Hid.
    - call_in Hid.
    - destruct (create_and_start_calls labels
                  (([CallImageInspect busyboxImage]
                    ++ [CallImagePull busyboxImage ("linux/" ++ GOARCH)%string])
                   ++ [CallCopy])) as (tail & Hcalls & [->|(id' & -> & Hc)] & _);
        rewrite Hcalls in *; call_in Hid.
      injection Hid as ->. eexists. split; [|exact Hc]. call_there.
    - destruct (create_and_start_calls labels [CallImageInspect busyboxImage])
        as (tail & Hcalls & [->|(id' & -> & Hc)] & _);
        rewrite Hcalls in *; call_in Hid.
      injection Hid as ->. eexists. split; [|exact Hc]. call_there. }
  unfold TriggerUIRefresh, create_and_start.
  destruct (inspect_result busyboxImage);
    [destruct (pull_result _ _); [|destruct copy_result]|]; cbn [fst snd];
    try discriminate;
    (destruct (create_result _) as [err|id]; cbn [fst snd]; [discriminate|]);
    (destruct (start_result id) eqn:Hs; cbn [fst snd]; [discriminate|]);
    intros _; exists id; (split; [call_there | done]).
Qed.

Lemma X21_refresh_creates_after_image_is_there_witness :
  @TriggerUIRefresh daemon_offline "amd64" ∅
  = (Some (Err "no route to host"),
     [CallImageInspect busyboxImage; CallImagePull busyboxImage "linux/amd64"]).
Proof.
  destruct (X21_refresh_creates_after_image_is_there daemon_offline "amd64" ∅)
    as (_ & _ & Hfail & _).
  destruct (Hfail (Err "No such image") eq_refl) as [Hpull _].
  apply Hpull. reflexivity.
Defined.
